(** * mixpanel: the export client of mixport

    A shallow embedding of [mixpanel/mixpanel.go] and the properties of
    its request signing, request construction and streaming fan-out
    pipeline.

    Go strings are byte strings: a Go [string] is a Rocq [string] (a list
    of 8-bit [ascii]), a [[]byte] is a [list Z] of values below 256 while
    it is hashed and a [string] once it is sent.  A Go map is a [gmap];
    a nil map is [None].  The clock, the HTTP transport and the JSON
    encoder are collaborators of the package: the first two are explicit
    arguments, the last is a section variable. *)

From Stdlib Require Import ZArith Ascii String List DecimalString.
From stdpp Require Import base option list sorting relations strings gmap fin_maps.

Set Warnings "-register-all".

Local Open Scope string_scope.
Local Open Scope Z_scope.

(** ** Bytes *)

Definition byte_of_ascii (c : ascii) : Z := Z.of_N (N_of_ascii c).
Definition ascii_of_byte (b : Z) : ascii := ascii_of_N (Z.to_N (b mod 256)).

Definition bytes_of_string (s : string) : list Z :=
  byte_of_ascii <$> list_ascii_of_string s.

(** The conversion [string(b)] of a byte slice. *)
Definition string_of_bytes (l : list Z) : string :=
  string_of_list_ascii (ascii_of_byte <$> l).

(** ** crypto/md5 (RFC 1321), on 32-bit words with their wrap-around *)

Module MD5.

Definition w32 (x : Z) : Z := x mod 2 ^ 32.

Definition rotl32 (x s : Z) : Z :=
  w32 (Z.lor (Z.shiftl x s) (Z.shiftr x (32 - s))).

Definition not32 (x : Z) : Z := Z.lxor x 0xffffffff.

Definition shifts : list Z :=
  [ 7; 12; 17; 22; 7; 12; 17; 22; 7; 12; 17; 22; 7; 12; 17; 22;
    5; 9; 14; 20; 5; 9; 14; 20; 5; 9; 14; 20; 5; 9; 14; 20;
    4; 11; 16; 23; 4; 11; 16; 23; 4; 11; 16; 23; 4; 11; 16; 23;
    6; 10; 15; 21; 6; 10; 15; 21; 6; 10; 15; 21; 6; 10; 15; 21 ].

Definition sines : list Z :=
  [ 0xd76aa478; 0xe8c7b756; 0x242070db; 0xc1bdceee;
    0xf57c0faf; 0x4787c62a; 0xa8304613; 0xfd469501;
    0x698098d8; 0x8b44f7af; 0xffff5bb1; 0x895cd7be;
    0x6b901122; 0xfd987193; 0xa679438e; 0x49b40821;
    0xf61e2562; 0xc040b340; 0x265e5a51; 0xe9b6c7aa;
    0xd62f105d; 0x02441453; 0xd8a1e681; 0xe7d3fbc8;
    0x21e1cde6; 0xc33707d6; 0xf4d50d87; 0x455a14ed;
    0xa9e3e905; 0xfcefa3f8; 0x676f02d9; 0x8d2a4c8a;
    0xfffa3942; 0x8771f681; 0x6d9d6122; 0xfde5380c;
    0xa4beea44; 0x4bdecfa9; 0xf6bb4b60; 0xbebfbc70;
    0x289b7ec6; 0xeaa127fa; 0xd4ef3085; 0x04881d05;
    0xd9d4d039; 0xe6db99e5; 0x1fa27cf8; 0xc4ac5665;
    0xf4292244; 0x432aff97; 0xab9423a7; 0xfc93a039;
    0x655b59c3; 0x8f0ccc92; 0xffeff47d; 0x85845dd1;
    0x6fa87e4f; 0xfe2ce6e0; 0xa3014314; 0x4e0811a1;
    0xf7537e82; 0xbd3af235; 0x2ad7d2bb; 0xeb86d391 ].

Definition word_at (l : list Z) (i : Z) : Z := nth (Z.to_nat i) l 0.

(** Little-endian packing of four bytes, and its inverse. *)
Definition le32 (bs : list Z) : Z :=
  word_at bs 0 + 2 ^ 8 * word_at bs 1 + 2 ^ 16 * word_at bs 2
  + 2 ^ 24 * word_at bs 3.

Definition le_bytes (n : nat) (x : Z) : list Z :=
  (fun i => Z.shiftr x (8 * Z.of_nat i) mod 256) <$> seq 0 n.

Definition block_words (block : list Z) : list Z :=
  (fun i => le32 (take 4 (drop (4 * i) block))) <$> seq 0 16.

Definition digest_state : Type := Z * Z * Z * Z.

Definition init : digest_state :=
  (0x67452301, 0xefcdab89, 0x98badcfe, 0x10325476).

Definition step (M : list Z) (st : digest_state) (i : nat) : digest_state :=
  let '(a, b, c, d) := st in
  let zi := Z.of_nat i in
  let '(f, g) :=
    if zi <? 16 then (Z.lor (Z.land b c) (Z.land (not32 b) d), zi)
    else if zi <? 32 then
      (Z.lor (Z.land d b) (Z.land (not32 d) c), (5 * zi + 1) mod 16)
    else if zi <? 48 then (Z.lxor (Z.lxor b c) d, (3 * zi + 5) mod 16)
    else (Z.lxor c (Z.lor b (not32 d)), (7 * zi) mod 16) in
  let f' := w32 (f + a + word_at sines zi + word_at M g) in
  (d, w32 (b + rotl32 f' (word_at shifts zi)), b, c).

Definition block (st : digest_state) (blk : list Z) : digest_state :=
  let '(a0, b0, c0, d0) := st in
  let '(a, b, c, d) := foldl (step (block_words blk)) st (seq 0 64) in
  (w32 (a0 + a), w32 (b0 + b), w32 (c0 + c), w32 (d0 + d)).

Fixpoint blocks (fuel : nat) (st : digest_state) (data : list Z)
  : digest_state :=
  match fuel, data with
  | O, _ | _, [] => st
  | S fuel', _ => blocks fuel' (block st (take 64 data)) (drop 64 data)
  end.

Definition pad (msg : list Z) : list Z :=
  let n := Z.of_nat (length msg) in
  (msg ++ [128] ++ replicate (Z.to_nat ((55 - n) mod 64)) 0
       ++ le_bytes 8 ((8 * n) mod 2 ^ 64))%list.

(** [Sum] of everything written to a fresh [md5.New()]. *)
Definition sum (msg : list Z) : list Z :=
  let data := pad msg in
  let '(a, b, c, d) := blocks (length data) init data in
  (le_bytes 4 a ++ le_bytes 4 b ++ le_bytes 4 c ++ le_bytes 4 d)%list.

End MD5.

(** [hex.EncodeToString]: what the textual rendering of a digest is. *)
Definition hexdigit (n : Z) : ascii :=
  nth (Z.to_nat n) (list_ascii_of_string "0123456789abcdef") "0"%char.

Definition hex_of_bytes (l : list Z) : string :=
  string_of_list_ascii
    (concat ((fun b => [hexdigit (b / 16); hexdigit (b mod 16)]) <$> l)).

Definition is_hex_char (c : ascii) : bool :=
  let n := byte_of_ascii c in
  ((48 <=? n) && (n <=? 57)) || ((97 <=? n) && (n <=? 102))
  || ((65 <=? n) && (n <=? 70)).

(** ** strconv and the conversion [string(n)] of an integer *)

(** Wrap-around of a signed 64-bit integer. *)
Definition wrap64 (x : Z) : Z := (x + 2 ^ 63) mod 2 ^ 64 - 2 ^ 63.

(** [strconv.Itoa]: the decimal rendering. *)
Definition decimal (n : Z) : string := NilZero.string_of_int (Z.to_int n).

Definition RuneError : Z := 0xFFFD.

(** [utf8.EncodeRune] on a rune seen as an unsigned 32-bit value. *)
Definition encoderune (r : Z) : list Z :=
  let i := r mod 2 ^ 32 in
  let three (r : Z) :=
    [ Z.lor 0xE0 (Z.shiftr r 12);
      Z.lor 0x80 (Z.land (Z.shiftr r 6) 0x3F);
      Z.lor 0x80 (Z.land r 0x3F) ] in
  if i <=? 0x7F then [i]
  else if i <=? 0x7FF then
    [ Z.lor 0xC0 (Z.shiftr i 6); Z.lor 0x80 (Z.land i 0x3F) ]
  else if (0x10FFFF <? i) || ((0xD800 <=? i) && (i <=? 0xDFFF)) then
    three RuneError
  else if i <=? 0xFFFF then three i
  else
    [ Z.lor 0xF0 (Z.shiftr i 18);
      Z.lor 0x80 (Z.land (Z.shiftr i 12) 0x3F);
      Z.lor 0x80 (Z.land (Z.shiftr i 6) 0x3F);
      Z.lor 0x80 (Z.land i 0x3F) ].

(** The Go conversion [string(v)] of an [int64]: the UTF-8 encoding of
    the code point [v], and of U+FFFD when [v] does not fit a rune. *)
Definition string_of_int64 (v : Z) : string :=
  let r := if (- 2 ^ 31 <=? v) && (v <? 2 ^ 31) then v else RuneError in
  string_of_bytes (encoderune r).

(** ** net/url: [Values] and its query encoding *)

Abbreviation Values := (gmap string (list string)).

(** [v.Set(key, value)] *)
Definition Values_Set (key value : string) (v : Values) : Values :=
  <[key := [value]]> v.

(** [v.Add(key, value)] *)
Definition Values_Add (key value : string) (v : Values) : Values :=
  <[key := (default [] (v !! key) ++ [value])%list]> v.

Definition upperhex (n : Z) : ascii :=
  nth (Z.to_nat n) (list_ascii_of_string "0123456789ABCDEF") "0"%char.

(** [shouldEscape(c, encodeQueryComponent)] *)
Definition shouldEscape (c : ascii) : bool :=
  let n := byte_of_ascii c in
  if ((97 <=? n) && (n <=? 122)) || ((65 <=? n) && (n <=? 90))
     || ((48 <=? n) && (n <=? 57)) then false
  else if (n =? 45) || (n =? 95) || (n =? 46) || (n =? 126) then false
  else true.

Fixpoint QueryEscape (s : string) : string :=
  match s with
  | EmptyString => EmptyString
  | String c rest =>
      if Ascii.eqb c " "%char then String "+"%char (QueryEscape rest)
      else if shouldEscape c then
        String "%"%char
          (String (upperhex (byte_of_ascii c / 16))
             (String (upperhex (byte_of_ascii c mod 16)) (QueryEscape rest)))
      else String c (QueryEscape rest)
  end.

(** One [key=value] pair appended to the buffer of [Encode]. *)
Definition writePair (keyEscaped : string) (buf value : string) : string :=
  (if String.eqb buf "" then buf else buf +:+ "&")
    +:+ keyEscaped +:+ "=" +:+ QueryEscape value.

(** [v.Encode()], from the order [keys] in which [range v] happened to
    yield the keys: they are sorted before anything is written. *)
Definition Values_EncodeFrom (keys : list string) (v : Values) : string :=
  foldl (fun buf k => foldl (writePair (QueryEscape k)) buf
                        (default [] (v !! k)))
        "" (merge_sort String.le keys).

Definition Values_Encode (v : Values) : string :=
  Values_EncodeFrom (map_to_list v).*1 v.

(** ** time: the calendar day of a [time.Time] in its location *)

Record Date := { year : Z; month : Z; day : Z }.

(** [appendInt] of package time: sign, zero padding to [width], digits. *)
Definition appendInt (x : Z) (width : nat) : string :=
  let digits := decimal (Z.abs x) in
  (if x <? 0 then "-" else "")
    +:+ string_of_list_ascii
          (replicate (width - String.length digits) "0"%char)
    +:+ digits.

(** [date.Format("2006-01-02")] *)
Definition Format_2006_01_02 (d : Date) : string :=
  appendInt (year d) 4 +:+ "-" +:+ appendInt (month d) 2
    +:+ "-" +:+ appendInt (day d) 2.

(** ** The client *)

Definition MixpanelBaseURL : string := "http://mixpanel.com/api".

Record Mixpanel := {
  Product : string;
  Key : string;
  Secret : string;
  BaseURL : string
}.

Definition NewWithURL (product key secret baseURL : string) : Mixpanel :=
  {| Product := product; Key := key; Secret := secret; BaseURL := baseURL |}.

(** [New] calls [NewWithUrl], a name the package does not declare; the
    constructor it means is [NewWithURL]. *)
Definition New (product key secret : string) : Mixpanel :=
  NewWithURL product key secret MixpanelBaseURL.

(** The digest written by [addSignature]: both [io.WriteString] calls,
    then [hash.Sum(nil)]. *)
Definition signatureDigest (m : Mixpanel) (encoded : string) : list Z :=
  MD5.sum (bytes_of_string encoded ++ bytes_of_string (Secret m))%list.

(** [addSignature], with the key order [keys] of the [range] inside
    [args.Encode()]. *)
Definition addSignatureFrom (keys : list string) (m : Mixpanel)
    (args : Values) : Values :=
  Values_Set "sig"
    (string_of_bytes (signatureDigest m (Values_EncodeFrom keys args))) args.

Definition addSignature (m : Mixpanel) (args : Values) : Values :=
  addSignatureFrom (map_to_list args).*1 m args.

(** [makeArgs]; [now] is [time.Now().Unix()]. *)
Definition makeArgs (m : Mixpanel) (now : Z) : Values :=
  Values_Set "expire" (string_of_int64 (wrap64 (now + 10000)))
    (Values_Set "api_key" (Key m) (Values_Set "format" "json" ∅)).

(** The loop of [ExportDate] over [*moreArgs]. *)
Definition addMoreArgs (moreArgs : option Values) (args : Values) : Values :=
  match moreArgs with
  | None => args
  | Some more =>
      map_fold (fun k vs a => foldl (fun a v => Values_Add k v a) a vs)
               args more
  end.

(** The arguments of the request of [ExportDate], signed (lines 70-84;
    [MakeArgs] and [AddSignature] there are [makeArgs] and
    [addSignature]). *)
Definition exportArgs (m : Mixpanel) (now : Z) (date : Date)
    (moreArgs : option Values) : Values :=
  let args := addMoreArgs moreArgs (makeArgs m now) in
  let day := Format_2006_01_02 date in
  addSignature m (Values_Set "end" day (Values_Set "start" day args)).

(** The URL handed to [http.Get]. *)
Definition exportURL (m : Mixpanel) (now : Z) (date : Date)
    (moreArgs : option Values) : string :=
  BaseURL m +:+ "/2.0/export?"
    +:+ Values_Encode (exportArgs m now date moreArgs).

(** ** encoding/json: the values the package handles *)

(** A Go value held in an [interface{}]: what the decoder builds from
    JSON text, and [VOpaque] for the Go values that encoding/json cannot
    encode (a channel, a function, a NaN).  A number is a [float64];
    [VNumber] keeps it by the text that encoding/json writes for it (its
    shortest form: [1], not [1.0]), and a number of the stream is taken
    to be written that way. *)
Inductive value :=
| VNull
| VBool (b : bool)
| VNumber (lit : string)
| VString (s : string)
| VArray (items : list value)
| VObject (members : list (string * value))
| VOpaque.

(** A non-nil [map[string]interface{}]. *)
Abbreviation props := (gmap string value).

(** One element of the response body as [decoder.Decode] meets it: a
    complete JSON value, or input it cannot get a value from (a syntax
    error, a read error of the transport); [io.EOF] is the end of the
    list. *)
Inductive element :=
| Value (v : value)
| Malformed (err : string).

(** The struct declared inside [ExportDate]; a nil map is [None]. *)
Record JSONEvent := {
  event : string;
  properties : option props
}.

(** [var ev JSONEvent] *)
Definition zeroJSONEvent : JSONEvent := {| event := ""; properties := None |}.

Inductive DecodeResult :=
| Decoded (ev : JSONEvent)
| DecodeError (err : string).

(** encoding/json reads and writes only the exported fields of a struct,
    those whose name starts with an upper-case letter. *)
Definition goExported (name : string) : bool :=
  match name with
  | EmptyString => false
  | String c _ => (65 <=? byte_of_ascii c) && (byte_of_ascii c <=? 90)
  end.

Definition lower (c : ascii) : ascii :=
  let n := byte_of_ascii c in
  if (65 <=? n) && (n <=? 90) then ascii_of_byte (n + 32) else c.

(** A member key matches a field name up to the case of its letters. *)
Fixpoint equalFold (a b : string) : bool :=
  match a, b with
  | EmptyString, EmptyString => true
  | String x a', String y b' => Ascii.eqb (lower x) (lower y) && equalFold a' b'
  | _, _ => false
  end.

Definition fieldMatches (field key : string) : bool :=
  goExported field && equalFold field key.

(** Members of a JSON object stored into a map, the later one winning. *)
Definition storeMembers (into : props) (members : list (string * value))
  : props :=
  foldl (fun acc kv => <[kv.1 := kv.2]> acc) into members.

(** The JSON kind that an [UnmarshalTypeError] names. *)
Definition jsonKind (v : value) : string :=
  match v with
  | VNull => "null"
  | VBool _ => "bool"
  | VNumber _ => "number"
  | VString _ => "string"
  | VArray _ => "array"
  | VObject _ => "object"
  | VOpaque => "value"
  end.

(** The text of an [*json.UnmarshalTypeError]: the JSON kind met and the
    Go value it was to be stored in. *)
Definition unmarshalTypeError (v : value) (target : string) : string :=
  "json: cannot unmarshal " +:+ jsonKind v +:+ " into Go " +:+ target.

(** One member of the object stored into [ev]: into the field of
    [JSONEvent] the key matches, if one does; a value of the wrong kind
    is remembered as the error of the call, the first one being kept. *)
Definition storeMember (acc : JSONEvent * option string)
    (kv : string * value) : JSONEvent * option string :=
  let '(ev, err) := acc in
  let mismatch target :=
    from_option Some (Some (unmarshalTypeError kv.2 target)) err in
  if fieldMatches "event" kv.1 then
    match kv.2 with
    | VString s => ({| event := s; properties := properties ev |}, err)
    | VNull => (ev, err)
    | _ => (ev, mismatch "struct field JSONEvent.event of type string")
    end
  else if fieldMatches "properties" kv.1 then
    match kv.2 with
    | VObject ms =>
        ({| event := event ev;
            properties :=
              Some (storeMembers (default ∅ (properties ev)) ms) |}, err)
    | VNull => ({| event := event ev; properties := None |}, err)
    | _ =>
        (ev, mismatch ("struct field JSONEvent.properties of type "
                       +:+ "map[string]interface {}"))
    end
  else (ev, err).

(** [decoder.Decode(&ev)] on one element, [ev] being fresh. *)
Definition Decode (el : element) : DecodeResult :=
  match el with
  | Malformed err => DecodeError err
  | Value VNull => Decoded zeroJSONEvent
  | Value (VObject members) =>
      match foldl storeMember (zeroJSONEvent, None) members with
      | (ev, None) => Decoded ev
      | (_, Some err) => DecodeError err
      end
  | Value v =>
      DecodeError
        (unmarshalTypeError v "value of type mixpanel.JSONEvent")
  end.

(** ** The pipeline of [ExportDate] and [eventHandler] *)

Inductive panicValue :=
| PanicString (s : string)
| PanicError (err : string).

(** What [http.Get] returns. *)
Inductive Response :=
| GetError (err : string)
| GetOK (body : list element).

(** Where the goroutine of [ExportDate] stands: at the top of its loop
    with the elements not yet decoded, blocked on the send of line 110 or
    115, in the loop that closes the channels, back in its caller, or
    unwinding from a panic. *)
Inductive router :=
| Reading (unread : list DecodeResult)
| Sending (key : string) (p : option props) (unread : list DecodeResult)
| Closing
| Returned
| Panicked (v : panicValue).

(** Where one [eventHandler] goroutine stands: blocked on the receive of
    line 129, holding what it received, blocked on the send of line 142,
    or past its loop. *)
Inductive handler :=
| Waiting
| Holding (p : option props)
| Emitting (buf : string)
| Exited.

Inductive chan := Open | Closed.

(** A message received from [outChan]; [by_event] is the [event]
    argument of the handler that sent it. *)
Record emission := { by_event : string; payload : string }.

Record state := {
  rt : router;
  eventChans : gmap string chan;
  handlers : gmap string handler;
  output : list emission;
  crashed : bool
}.

(** What one run of [eventHandler] does with the records it receives
    before its channel is closed. *)
Record handlerRun := {
  sent : list string;
  completed : bool
}.

Definition start (results : list DecodeResult) : state :=
  {| rt := Reading results; eventChans := ∅; handlers := ∅;
     output := []; crashed := false |}.

Section Pipeline.

(** [json.NewEncoder(&buf).Encode(props)]: the bytes it writes to the
    buffer, or [None] when it returns an error, having written nothing. *)
Variable Encode : props -> option string.

(** Lines 135 and 136. *)
Definition enrich (m : Mixpanel) (event : string) (p : props) : props :=
  <["event" := VString event]> (<["product" := VString (Product m)]> p).

(** Lines 138 to 140, and [buf.Bytes()]: the error of [Encode] is
    dropped. *)
Definition encodeToBuffer (p : props) : string := default "" (Encode p).

(** [eventHandler] alone, on the records [queue] its channel delivers
    before it is closed, with a receiver always ready on [output].  A nil
    map makes line 135 panic. *)
Fixpoint eventHandler (m : Mixpanel) (event : string)
    (queue : list (option props)) : handlerRun :=
  match queue with
  | [] => {| sent := []; completed := true |}
  | None :: _ => {| sent := []; completed := false |}
  | Some p :: rest =>
      let r := eventHandler m event rest in
      {| sent := encodeToBuffer (enrich m event p) :: sent r;
         completed := completed r |}
  end.

(** The interleavings of [ExportDate] with the handlers it starts.  All
    channels of [eventChans] are unbuffered; a panic in a handler ends
    the process. *)
Inductive step (m : Mixpanel) : state -> state -> Prop :=
| step_decode_error err unread ec hs out :
    step m {| rt := Reading (DecodeError err :: unread); eventChans := ec;
              handlers := hs; output := out; crashed := false |}
           {| rt := Panicked (PanicError err); eventChans := ec;
              handlers := hs; output := out; crashed := false |}
| step_dispatch_known ev unread ec hs out :
    is_Some (ec !! event ev) ->
    step m {| rt := Reading (Decoded ev :: unread); eventChans := ec;
              handlers := hs; output := out; crashed := false |}
           {| rt := Sending (event ev) (properties ev) unread;
              eventChans := ec; handlers := hs; output := out;
              crashed := false |}
| step_dispatch_new ev unread ec hs out :
    ec !! event ev = None ->
    step m {| rt := Reading (Decoded ev :: unread); eventChans := ec;
              handlers := hs; output := out; crashed := false |}
           {| rt := Sending (event ev) (properties ev) unread;
              eventChans := <[event ev := Open]> ec;
              handlers := <[event ev := Waiting]> hs; output := out;
              crashed := false |}
| step_eof ec hs out :
    step m {| rt := Reading []; eventChans := ec; handlers := hs;
              output := out; crashed := false |}
           {| rt := Closing; eventChans := ec; handlers := hs;
              output := out; crashed := false |}
| step_receive k p unread ec hs out :
    hs !! k = Some Waiting ->
    step m {| rt := Sending k p unread; eventChans := ec; handlers := hs;
              output := out; crashed := false |}
           {| rt := Reading unread; eventChans := ec;
              handlers := <[k := Holding p]> hs; output := out;
              crashed := false |}
| step_nil_map k r ec hs out :
    hs !! k = Some (Holding None) ->
    step m {| rt := r; eventChans := ec; handlers := hs; output := out;
              crashed := false |}
           {| rt := r; eventChans := ec; handlers := hs; output := out;
              crashed := true |}
| step_enrich k p r ec hs out :
    hs !! k = Some (Holding (Some p)) ->
    step m {| rt := r; eventChans := ec; handlers := hs; output := out;
              crashed := false |}
           {| rt := r; eventChans := ec;
              handlers := <[k := Emitting (encodeToBuffer (enrich m k p))]> hs;
              output := out; crashed := false |}
| step_emit k buf r ec hs out :
    hs !! k = Some (Emitting buf) ->
    step m {| rt := r; eventChans := ec; handlers := hs; output := out;
              crashed := false |}
           {| rt := r; eventChans := ec; handlers := <[k := Waiting]> hs;
              output := (out ++ [{| by_event := k; payload := buf |}])%list;
              crashed := false |}
| step_close k ec hs out :
    ec !! k = Some Open ->
    step m {| rt := Closing; eventChans := ec; handlers := hs;
              output := out; crashed := false |}
           {| rt := Closing; eventChans := <[k := Closed]> ec;
              handlers := hs; output := out; crashed := false |}
| step_return ec hs out :
    (forall k c, ec !! k = Some c -> c = Closed) ->
    step m {| rt := Closing; eventChans := ec; handlers := hs;
              output := out; crashed := false |}
           {| rt := Returned; eventChans := ec; handlers := hs;
              output := out; crashed := false |}
| step_exit k r ec hs out :
    hs !! k = Some Waiting ->
    ec !! k = Some Closed ->
    step m {| rt := r; eventChans := ec; handlers := hs; output := out;
              crashed := false |}
           {| rt := r; eventChans := ec; handlers := <[k := Exited]> hs;
              output := out; crashed := false |}.

End Pipeline.

(** [ExportDate] up to its loop: the request is built and sent through
    [get]; a failure panics, a response starts the loop on its body. *)
Definition ExportDate (m : Mixpanel) (now : Z) (get : string -> Response)
    (date : Date) (moreArgs : option Values) : state :=
  match get (exportURL m now date moreArgs) with
  | GetError err =>
      {| rt := Panicked (PanicString "XXX handle this. FAILED");
         eventChans := ∅; handlers := ∅; output := []; crashed := false |}
  | GetOK body => start (Decode <$> body)
  end.

(** ** Observations on a run *)

(** The payloads received from handlers started for [e], oldest first. *)
Definition payloads_for (e : string) (out : list emission) : list string :=
  payload <$> filter (fun x => by_event x = e) out.

(** The property maps that the loop of [ExportDate] sends on the channel
    of [e], in the order of the stream; the loop stops at the first
    element that fails to decode. *)
Fixpoint dispatched (e : string) (results : list DecodeResult)
  : list (option props) :=
  match results with
  | Decoded ev :: rest =>
      if decide (event ev = e) then properties ev :: dispatched e rest
      else dispatched e rest
  | _ => []
  end.

(** The elements the loop has yet to decode. *)
Definition unread_of (r : router) : list DecodeResult :=
  match r with
  | Reading unread | Sending _ _ unread => unread
  | _ => []
  end.

(** What is in flight towards the output for [e]: the map the loop is
    sending, the map the handler holds, the buffer it is emitting. *)
Definition sending (e : string) (r : router) : list (option props) :=
  match r with
  | Sending k p _ => if decide (k = e) then [p] else []
  | _ => []
  end.

Definition holding (h : option handler) : list (option props) :=
  match h with
  | Some (Holding p) => [p]
  | _ => []
  end.

Definition emitting (h : option handler) : list string :=
  match h with
  | Some (Emitting buf) => [buf]
  | _ => []
  end.

(** The maps still to be handled for [e], in order. *)
Definition backlog (e : string) (s : state) : list (option props) :=
  (holding (handlers s !! e) ++ sending e (rt s)
     ++ dispatched e (unread_of (rt s)))%list.

(** Every payload for [e]: received, being emitted, and those that
    [eventHandler] makes of the backlog. *)
Definition accounted (Encode : props -> option string) (m : Mixpanel)
    (e : string) (s : state) : list string :=
  (payloads_for e (output s) ++ emitting (handlers s !! e)
     ++ sent (eventHandler Encode m e (backlog e s)))%list.

(** Handlers exist only for keys of the registry. *)
Definition registered (s : state) : Prop :=
  forall k, eventChans s !! k = None -> handlers s !! k = None.

(** [buf] is what lines 135 to 140 make of some record under [k]. *)
Definition produced (Encode : props -> option string) (m : Mixpanel)
    (k : string) (buf : string) : Prop :=
  exists p, buf = encodeToBuffer Encode (enrich m k p).

(** Every buffer on its way out, and every message delivered, is an
    enriched record whose event type is that of its handler. *)
Definition tagged (Encode : props -> option string) (m : Mixpanel)
    (s : state) : Prop :=
  (forall k buf, handlers s !! k = Some (Emitting buf) ->
                 produced Encode m k buf)
  /\ Forall (fun x => produced Encode m (by_event x) (payload x)) (output s).

(** A decode result that left [ev] as declared. *)
Definition zeroResult (r : DecodeResult) : Prop :=
  match r with
  | Decoded ev => ev = zeroJSONEvent
  | DecodeError _ => True
  end.

(** A handler that has no payload. *)
Definition idle (h : handler) : Prop :=
  h = Waiting \/ h = Holding None \/ h = Exited.

(** The states of a run in which nothing was ever decoded into a field:
    one channel at most, under the empty key, nil maps only, no output. *)
Record degenerate (s : state) : Prop := {
  deg_unread : Forall zeroResult (unread_of (rt s));
  deg_sending : forall k p u, rt s = Sending k p u -> k = "" /\ p = None;
  deg_chans : forall k, is_Some (eventChans s !! k) -> k = "";
  deg_handlers : forall k h, handlers s !! k = Some h -> idle h;
  deg_output : output s = []
}.

(** ** An encoder for closed examples

    It fails on a record that holds a value encoding/json cannot encode
    and otherwise writes the object with its keys sorted, followed by a
    newline; quote, backslash, control characters and the characters
    unsafe in HTML are escaped.  It stands for encoding/json on strings
    of printable ASCII, newline, carriage return and tab only: it
    neither checks UTF-8 nor escapes U+2028 and U+2029. *)

Definition quoteChar (c : ascii) : string :=
  let n := byte_of_ascii c in
  if (n =? 34) || (n =? 92) then String (ascii_of_byte 92) (String c "")
  else if n =? 10 then String (ascii_of_byte 92) "n"
  else if n =? 13 then String (ascii_of_byte 92) "r"
  else if n =? 9 then String (ascii_of_byte 92) "t"
  else if (n <? 32) || (n =? 60) || (n =? 62) || (n =? 38) then
    String (ascii_of_byte 92)
      ("u00" +:+ String (hexdigit (n / 16)) (String (hexdigit (n mod 16)) ""))
  else String c "".

Fixpoint quoteBody (s : string) : string :=
  match s with
  | EmptyString => EmptyString
  | String c rest => quoteChar c +:+ quoteBody rest
  end.

Definition quote (s : string) : string :=
  String (ascii_of_byte 34) (quoteBody s) +:+ String (ascii_of_byte 34) "".

Definition renderObject (members : list (string * string)) : string :=
  "{" +:+ String.concat ","
            ((fun kt => quote kt.1 +:+ ":" +:+ kt.2)
               <$> merge_sort (fun a b => String.le a.1 b.1) members)
      +:+ "}".

Fixpoint marshalValue (v : value) : option string :=
  match v with
  | VNull => Some "null"
  | VBool b => Some (if b then "true" else "false")
  | VNumber lit => Some lit
  | VString s => Some (quote s)
  | VArray items =>
      (fun parts => "[" +:+ String.concat "," parts +:+ "]")
        <$> mapM marshalValue items
  | VObject members =>
      renderObject
        <$> mapM (fun kv => pair kv.1 <$> marshalValue kv.2) members
  | VOpaque => None
  end.

Definition exampleEncode (p : props) : option string :=
  (fun text => text +:+ String (ascii_of_byte 10) "")
    <$> marshalValue (VObject (map_to_list p)).

(** A client and records for the closed examples. *)
Definition app : Mixpanel := New "app" "key" "secret".

Definition signup_u1 : value :=
  VObject [("event", VString "signup");
           ("properties", VObject [("distinct_id", VString "u1")])].


Definition plain_u1 : props := {["distinct_id" := VString "u1"]}.

Definition day_2013_03_07 : Date := {| year := 2013; month := 3; day := 7 |}.

(** The state in which one record, the only one so far, has reached the
    handler of [k] as [p]. *)
Definition handed_over (k : string) (p : option props) (r : router)
    (c : chan) (dead : bool) : state :=
  {| rt := r; eventChans := {[k := c]}; handlers := {[k := Holding p]};
     output := []; crashed := dead |}.

(** The three records of the end-to-end scenario, as a decoder that
    filled the fields would deliver them. *)
Definition scenario : list DecodeResult :=
  [ Decoded {| event := "signup"; properties := Some plain_u1 |};
    Decoded {| event := "purchase";
               properties :=
                 Some (<["amount" := VNumber "10"]> plain_u1) |};
    Decoded {| event := "signup";
               properties := Some {["distinct_id" := VString "u2"]} |} ].

Definition scenario_output : list emission :=
  [ {| by_event := "signup";
       payload := "{" +:+ quote "distinct_id" +:+ ":" +:+ quote "u1" +:+ ","
                  +:+ quote "event" +:+ ":" +:+ quote "signup" +:+ ","
                  +:+ quote "product" +:+ ":" +:+ quote "app" +:+ "}"
                  +:+ String (ascii_of_byte 10) "" |};
    {| by_event := "purchase";
       payload := "{" +:+ quote "amount" +:+ ":10,"
                  +:+ quote "distinct_id" +:+ ":" +:+ quote "u1" +:+ ","
                  +:+ quote "event" +:+ ":" +:+ quote "purchase" +:+ ","
                  +:+ quote "product" +:+ ":" +:+ quote "app" +:+ "}"
                  +:+ String (ascii_of_byte 10) "" |};
    {| by_event := "signup";
       payload := "{" +:+ quote "distinct_id" +:+ ":" +:+ quote "u2" +:+ ","
                  +:+ quote "event" +:+ ":" +:+ quote "signup" +:+ ","
                  +:+ quote "product" +:+ ":" +:+ quote "app" +:+ "}"
                  +:+ String (ascii_of_byte 10) "" |} ].

(** The end of a run on [scenario]: all handlers past their loop. *)
Definition scenario_done : state :=
  {| rt := Returned;
     eventChans := {["signup" := Closed; "purchase" := Closed]};
     handlers := {["signup" := Exited; "purchase" := Exited]};
     output := scenario_output; crashed := false |}.

(** ** Shape of the states of a run *)

(** The loop of [ExportDate] has not reached the [close] calls. *)
Definition loop_open (r : router) : Prop :=
  match r with
  | Reading _ | Sending _ _ _ | Panicked _ => True
  | Closing | Returned => False
  end.

Definition is_closed (c : chan) : bool :=
  match c with Closed => true | Open => false end.

Definition is_exited (h : handler) : bool :=
  match h with Exited => true | _ => false end.

(** How registry, handlers and the position of the loop fit together. *)
Record coherent (s : state) : Prop := {
  coh_dom : forall k, is_Some (handlers s !! k) <-> is_Some (eventChans s !! k);
  coh_open : loop_open (rt s) ->
             forall k c, eventChans s !! k = Some c -> c = Open;
  coh_closed : rt s = Returned ->
               forall k c, eventChans s !! k = Some c -> c = Closed;
  coh_sending : forall k p u, rt s = Sending k p u ->
                              is_Some (eventChans s !! k);
  coh_exited : forall k, handlers s !! k = Some Exited ->
                         eventChans s !! k = Some Closed
}.

(** [ExportDate] is back in its caller and every handler is past its
    loop. *)
Definition finished (s : state) : Prop :=
  rt s = Returned /\ forall k h, handlers s !! k = Some h -> h = Exited.

(** The characters of an encoded query: unreserved ones, the two that
    [QueryEscape] introduces, and the separators of [Encode]. *)
Definition query_char (c : ascii) : bool :=
  negb (shouldEscape c)
  || (byte_of_ascii c =? 37) || (byte_of_ascii c =? 43)
  || (byte_of_ascii c =? 61) || (byte_of_ascii c =? 38).

Definition query_safe (s : string) : Prop :=
  forallb query_char (list_ascii_of_string s) = true.

(** A string of decimal digits and the number it writes. *)
Definition is_digit (c : ascii) : bool :=
  (48 <=? byte_of_ascii c) && (byte_of_ascii c <=? 57).

Definition all_digits (s : string) : Prop :=
  forallb is_digit (list_ascii_of_string s) = true.

Definition digits_value (s : string) : Z :=
  fold_left (fun acc c => 10 * acc + (byte_of_ascii c - 48))
            (list_ascii_of_string s) 0.

(** The first record of [scenario] on its way to its new handler. *)
Definition scenario_sending : state :=
  {| rt := Sending "signup" (Some plain_u1) (tail scenario);
     eventChans := {["signup" := Open]};
     handlers := {["signup" := Waiting]};
     output := []; crashed := false |}.

(** A string that [QueryEscape] has nothing to escape in. *)
Definition unreserved (s : string) : Prop :=
  forallb (fun c => negb (shouldEscape c)) (list_ascii_of_string s) = true.

(** Lines 135 to 142 on one record. *)
Definition handled (Encode : props -> option string) (m : Mixpanel)
    (e : string) (p : props) : string :=
  encodeToBuffer Encode (enrich m e p).




(** A stream whose third element fails to decode; the state of a run
    on it at the panic, the first record delivered and the second still
    in its handler; and a later state, the second record delivered as
    well and both handlers waiting. *)
Definition interrupted : list DecodeResult :=
  (take 2 scenario ++ [DecodeError "unexpected end of JSON input"])%list.

Definition interrupted_panicked : state :=
  {| rt := Panicked (PanicError "unexpected end of JSON input");
     eventChans := {["signup" := Open; "purchase" := Open]};
     handlers :=
       {["signup" := Waiting;
         "purchase" := Holding (Some (<["amount" := VNumber "10"]> plain_u1))]};
     output := take 1 scenario_output; crashed := false |}.

Definition interrupted_leaked : state :=
  {| rt := Panicked (PanicError "unexpected end of JSON input");
     eventChans := {["signup" := Open; "purchase" := Open]};
     handlers := {["signup" := Waiting; "purchase" := Waiting]};
     output := take 2 scenario_output; crashed := false |}.

(** * Properties *)

(** ** crypto/md5 against its test vectors *)

Example md5_empty :
  hex_of_bytes (MD5.sum []) = "d41d8cd98f00b204e9800998ecf8427e".
Proof. vm_compute. reflexivity. Qed.

Example md5_abc :
  hex_of_bytes (MD5.sum (bytes_of_string "abc"))
  = "900150983cd24fb0d6963f7d28e17f72".
Proof. vm_compute. reflexivity. Qed.

Example md5_two_blocks :
  hex_of_bytes (MD5.sum (bytes_of_string
    "12345678901234567890123456789012345678901234567890123456789012345678901234567890"))
  = "57edf4a22be3c955ac49da2e2107b67a".
Proof. vm_compute. reflexivity. Qed.

(** ** Bytes and strings *)

Lemma length_string_of_list_ascii (l : list ascii) :
  String.length (string_of_list_ascii l) = length l.
Proof. induction l as [|c l IH]; simpl; congruence. Qed.

Lemma length_string_of_bytes (l : list Z) :
  String.length (string_of_bytes l) = length l.
Proof.
  unfold string_of_bytes.
  by rewrite length_string_of_list_ascii, length_fmap.
Qed.

Lemma length_hex_of_bytes (l : list Z) :
  String.length (hex_of_bytes l) = (2 * length l)%nat.
Proof.
  unfold hex_of_bytes. rewrite length_string_of_list_ascii.
  induction l as [|b l IH]; [done|].
  rewrite fmap_cons. cbn [concat]. rewrite length_app, IH. simpl. lia.
Qed.

Lemma byte_of_ascii_of_byte (b : Z) :
  byte_of_ascii (ascii_of_byte b) = b mod 256.
Proof.
  unfold byte_of_ascii, ascii_of_byte.
  assert (0 <= b mod 256 < 256) as Hb by (apply Z.mod_pos_bound; lia).
  rewrite N_ascii_embedding by lia. lia.
Qed.

Lemma length_le_bytes (n : nat) (x : Z) : length (MD5.le_bytes n x) = n.
Proof. unfold MD5.le_bytes. by rewrite length_fmap, length_seq. Qed.

Lemma length_md5_sum (msg : list Z) : length (MD5.sum msg) = 16%nat.
Proof.
  unfold MD5.sum.
  destruct (MD5.blocks _ _ _) as [[[a b] c] d].
  by rewrite !length_app, !length_le_bytes.
Qed.

(** ** The signer *)

Lemma merge_sort_keys_perm (keys1 keys2 : list string) :
  keys1 ≡ₚ keys2 ->
  merge_sort String.le keys1 = merge_sort String.le keys2.
Proof.
  intros Hperm.
  apply (StronglySorted_unique String.le).
  - apply StronglySorted_merge_sort; apply _.
  - apply StronglySorted_merge_sort; apply _.
  - by rewrite !merge_sort_Permutation.
Qed.

(** The query encoding does not depend on the order in which the map
    yields its keys. *)
Lemma Values_EncodeFrom_perm (keys1 keys2 : list string) (v : Values) :
  keys1 ≡ₚ keys2 -> Values_EncodeFrom keys1 v = Values_EncodeFrom keys2 v.
Proof.
  intros Hperm. unfold Values_EncodeFrom.
  by rewrite (merge_sort_keys_perm keys1 keys2).
Qed.

Lemma addSignatureFrom_sig (keys : list string) (m : Mixpanel)
    (args : Values) :
  addSignatureFrom keys m args !! "sig"
  = Some [string_of_bytes (signatureDigest m (Values_EncodeFrom keys args))].
Proof. unfold addSignatureFrom, Values_Set. apply lookup_insert_eq. Qed.

Lemma addSignature_sig (m : Mixpanel) (args : Values) :
  addSignature m args !! "sig"
  = Some [string_of_bytes (signatureDigest m (Values_Encode args))].
Proof. unfold addSignature, addSignatureFrom, Values_Set. apply lookup_insert_eq. Qed.

(** C4: the [sig] value that [addSignature] attaches is the digest
    converted byte for byte to a string, 16 bytes long, and so never the
    hexadecimal rendering of the digest, which has 32 characters. *)
Theorem addSignature_sig_is_raw_digest (m : Mixpanel) (args : Values) :
  let digest := signatureDigest m (Values_Encode args) in
  addSignature m args !! "sig" = Some [string_of_bytes digest]
  /\ String.length (string_of_bytes digest) = 16%nat
  /\ string_of_bytes digest <> hex_of_bytes digest.
Proof.
  intros digest. subst digest. split; [exact (addSignature_sig m args)|].
  set (digest := signatureDigest m (Values_Encode args)).
  assert (String.length (string_of_bytes digest) = 16%nat) as Hlen.
  { rewrite length_string_of_bytes. apply length_md5_sum. }
  split; [done|].
  intros Heq. apply (f_equal String.length) in Heq.
  rewrite Hlen, length_hex_of_bytes in Heq.
  unfold digest, signatureDigest in Heq. rewrite length_md5_sum in Heq. lia.
Qed.

(** The signature of the empty query under the secret of [app] holds
    bytes that are no hexadecimal characters. *)
Example addSignature_app_empty :
  exists s, addSignature app ∅ !! "sig" = Some [s]
    /\ hex_of_bytes (bytes_of_string s) = "5ebe2294ecd0e0f08eab7690d2a6ee69"
    /\ forallb is_hex_char (list_ascii_of_string s) = false.
Proof. eexists. split; [exact (addSignature_sig app ∅)|]. by vm_compute. Qed.

(** C5: signing is deterministic: with the same secret and the same
    parameters, whatever the order in which the parameter map yields its
    keys, two calls attach the same [sig]. *)
Theorem addSignature_deterministic (m1 m2 : Mixpanel) (args : Values)
    (keys1 keys2 : list string) :
  Secret m1 = Secret m2 ->
  keys1 ≡ₚ keys2 ->
  addSignatureFrom keys1 m1 args !! "sig"
  = addSignatureFrom keys2 m2 args !! "sig".
Proof.
  intros Hsecret Hperm. rewrite !addSignatureFrom_sig.
  unfold signatureDigest.
  by rewrite Hsecret, (Values_EncodeFrom_perm keys1 keys2).
Qed.

Lemma addSignature_deterministic_witness :
  let args : Values := <["start" := ["2013-03-07"]]> (<["format" := ["json"]]> ∅) in
  addSignatureFrom ["start"; "format"] app args !! "sig"
  = addSignatureFrom ["format"; "start"] (NewWithURL "other" "key2" "secret" "http://localhost")
      args !! "sig".
Proof.
  intros args.
  apply (addSignature_deterministic app
           (NewWithURL "other" "key2" "secret" "http://localhost")
           args ["start"; "format"] ["format"; "start"]).
  - reflexivity.
  - apply Permutation_swap.
Defined.

(** ** The arguments of the request *)

Lemma decimal_head (v : Z) :
  exists c rest,
    decimal v = String c rest /\ Z.testbit (byte_of_ascii c) 7 = false.
Proof.
  unfold decimal.
  destruct (Z.to_int v) as [d|d]; [destruct d|]; simpl;
    eexists _, _; (split; reflexivity).
Qed.

Lemma lead_byte_high (hi x : Z) :
  Z.testbit hi 7 = true ->
  Z.testbit (byte_of_ascii (ascii_of_byte (Z.lor hi x))) 7 = true.
Proof.
  intros Hhi. rewrite byte_of_ascii_of_byte. change 256 with (2 ^ 8).
  rewrite Z.mod_pow2_bits_low by lia. by rewrite Z.lor_spec, Hhi.
Qed.

(** [string(v)] is one byte below 128 when [v] is such a code point and
    starts with a byte of a multi-byte sequence otherwise. *)
Lemma string_of_int64_head (v : Z) :
  0 <= v <= 127
  \/ exists c rest,
       string_of_int64 v = String c rest
       /\ Z.testbit (byte_of_ascii c) 7 = true.
Proof.
  unfold string_of_int64, encoderune.
  set (r := if (- 2 ^ 31 <=? v) && (v <? 2 ^ 31) then v else RuneError).
  destruct (r mod 2 ^ 32 <=? 127) eqn:Hsmall.
  - left. apply Z.leb_le in Hsmall. subst r.
    destruct ((- 2 ^ 31 <=? v) && (v <? 2 ^ 31)) eqn:Hrange.
    + apply andb_true_iff in Hrange as [Hlo Hhi].
      apply Z.leb_le in Hlo. apply Z.ltb_lt in Hhi.
      pose proof (Z.mod_pos_bound v (2 ^ 32) ltac:(lia)) as Hbound.
      pose proof (Z.div_mod v (2 ^ 32) ltac:(lia)) as Hdiv.
      change (2 ^ 32) with 4294967296 in *.
      change (2 ^ 31) with 2147483648 in *. lia.
    + assert (RuneError mod 2 ^ 32 = 65533) as Hre by reflexivity. lia.
  - right. repeat case_match;
      (eexists _, _; split; [reflexivity | by apply lead_byte_high]).
Qed.

Lemma string_of_int64_not_decimal (v : Z) : string_of_int64 v <> decimal v.
Proof.
  destruct (string_of_int64_head v) as [Hsmall | (c & rest & Hs & Hhigh)].
  - assert (forallb (fun n => negb (String.eqb (string_of_int64 (Z.of_nat n))
                                      (decimal (Z.of_nat n))))
                    (seq 0 128) = true) as Hall by (by vm_compute).
    rewrite forallb_forall in Hall.
    specialize (Hall (Z.to_nat v)). rewrite Z2Nat.id in Hall by lia.
    apply negb_true_iff, String.eqb_neq in Hall; [done|].
    apply in_seq. lia.
  - destruct (decimal_head v) as (c' & rest' & Hd & Hlow).
    rewrite Hs, Hd. intros [= -> _]. congruence.
Qed.

Lemma Values_Add_lookup (k key value : string) (v : Values) :
  Values_Add key value v !! k
  = if decide (key = k) then Some (default [] (v !! k) ++ [value])%list
    else v !! k.
Proof.
  unfold Values_Add. rewrite lookup_insert.
  by destruct (decide (key = k)) as [->|].
Qed.

(** The extra arguments only append to what [makeArgs] has set. *)
Lemma addMoreArgs_lookup_Some (moreArgs : option Values) (args : Values)
    (k : string) (vs : list string) :
  args !! k = Some vs ->
  exists extra, addMoreArgs moreArgs args !! k = Some (vs ++ extra)%list.
Proof.
  intros Hk. destruct moreArgs as [more|]; simpl.
  2:{ exists []. by rewrite app_nil_r. }
  apply (map_fold_weak_ind
           (fun (r : Values) (_ : Values) =>
              exists extra, r !! k = Some (vs ++ extra)%list)).
  { exists []. by rewrite app_nil_r. }
  intros key values _ r _. clear Hk. revert r.
  induction values as [|value values IH]; intros r [extra Hr]; simpl.
  { by exists extra. }
  apply IH. rewrite Values_Add_lookup.
  destruct (decide (key = k)) as [->|]; [|by exists extra].
  rewrite Hr. simpl. exists (extra ++ [value])%list. by rewrite app_assoc.
Qed.

(** What the query of [ExportDate] does hold: [format], [api_key] and
    [expire] start with the values of [makeArgs], [start] and [end] are
    the formatted day, and [sig] is the raw digest. *)
Lemma exportArgs_parameters (m : Mixpanel) (now : Z) (date : Date)
    (moreArgs : option Values) :
  let q := exportArgs m now date moreArgs in
  (exists extra, q !! "format" = Some ("json" :: extra))
  /\ (exists extra, q !! "api_key" = Some (Key m :: extra))
  /\ (exists extra,
        q !! "expire"
        = Some (string_of_int64 (wrap64 (now + 10000)) :: extra))
  /\ q !! "start" = Some [Format_2006_01_02 date]
  /\ q !! "end" = Some [Format_2006_01_02 date].
Proof.
  intros q. subst q.
  unfold exportArgs, addSignature, addSignatureFrom, Values_Set.
  repeat split.
  - rewrite !lookup_insert_ne by done.
    apply (addMoreArgs_lookup_Some _ _ _ ["json"]).
    unfold makeArgs, Values_Set. by rewrite !lookup_insert_ne by done.
  - rewrite !lookup_insert_ne by done.
    apply (addMoreArgs_lookup_Some _ _ _ [Key m]).
    unfold makeArgs, Values_Set. by rewrite lookup_insert_ne by done.
  - rewrite !lookup_insert_ne by done.
    apply (addMoreArgs_lookup_Some _ _ _ [_]).
    unfold makeArgs, Values_Set. by rewrite lookup_insert_eq.
  - by rewrite lookup_insert_ne, lookup_insert_ne, lookup_insert_eq.
  - by rewrite lookup_insert_ne, lookup_insert_eq.
Qed.

Example Format_2006_01_02_example :
  Format_2006_01_02 {| year := 2013; month := 3; day := 7 |} = "2013-03-07".
Proof. by vm_compute. Qed.

(** C9: the [expire] value of the request is [string(n)] of the integer
    [n = time.Now().Unix() + 10000], the UTF-8 encoding of a code point,
    and for no clock reading the decimal rendering of [n]. *)
Theorem exportArgs_expire_not_decimal (m : Mixpanel) (now : Z) (date : Date)
    (moreArgs : option Values) :
  let n := wrap64 (now + 10000) in
  (exists extra,
     exportArgs m now date moreArgs !! "expire"
     = Some (string_of_int64 n :: extra))
  /\ string_of_int64 n <> decimal n.
Proof.
  intros n. split.
  - apply exportArgs_parameters.
  - apply string_of_int64_not_decimal.
Qed.

(** On 14 November 2023 the value is the three bytes of U+FFFD. *)
Example expire_2023 :
  exportArgs app 1700000000 {| year := 2023; month := 11; day := 14 |} None
    !! "expire" = Some [string_of_bytes [239; 191; 189]]
  /\ decimal (wrap64 (1700000000 + 10000)) = "1700010000".
Proof. by vm_compute. Qed.

(** ** The decoder *)

Lemma storeMember_skips (acc : JSONEvent * option string)
    (kv : string * value) : storeMember acc kv = acc.
Proof. by destruct acc. Qed.

Lemma foldl_storeMember (acc : JSONEvent * option string)
    (members : list (string * value)) : foldl storeMember acc members = acc.
Proof.
  induction members as [|kv members IH]; simpl; [done|].
  by rewrite storeMember_skips.
Qed.

(** The fields of [JSONEvent] are not exported, so no member of an
    object reaches them. *)
Lemma Decode_zero (el : element) (ev : JSONEvent) :
  Decode el = Decoded ev -> ev = zeroJSONEvent.
Proof.
  destruct el as [v|err]; [|done].
  destruct v; simpl; try congruence.
  rewrite foldl_storeMember. congruence.
Qed.

Lemma Decode_zeroResult (body : list element) :
  Forall zeroResult (Decode <$> body).
Proof.
  apply Forall_fmap, Forall_forall. intros el _. simpl.
  destruct (Decode el) as [ev|err] eqn:Hd; simpl; [|done].
  by apply Decode_zero in Hd.
Qed.

Section PipelineProperties.

Variable Encode : props -> option string.
Variable m : Mixpanel.

Lemma idle_insert (hs : gmap string handler) (k : string) (h : handler) :
  idle h ->
  (forall k' h', hs !! k' = Some h' -> idle h') ->
  forall k' h', <[k := h]> hs !! k' = Some h' -> idle h'.
Proof.
  intros Hh Hhs k' h'. rewrite lookup_insert.
  case_decide; [by intros [= <-] | apply Hhs].
Qed.

Lemma not_idle_payload (h : handler) :
  idle h -> (forall p, h <> Holding (Some p)) /\ (forall buf, h <> Emitting buf).
Proof. by intros [-> | [-> | ->]]. Qed.

Lemma step_degenerate (s s' : state) :
  degenerate s -> step Encode m s s' -> degenerate s'.
Proof.
  intros [Hu Hs Hc Hh Ho] Hstep.
  destruct Hstep; simpl in *.
  - by split.
  - inv Hu. split; simpl; [done| |done..].
    match goal with H : zeroResult _ |- _ => simpl in H; subst ev end.
    by intros ? ? ? [= <- <- _].
  - inv Hu.
    match goal with H : zeroResult _ |- _ => simpl in H; subst ev end.
    split; simpl; [done| | | |done].
    + by intros ? ? ? [= <- <- _].
    + intros k. rewrite lookup_insert. case_decide; [done | apply Hc].
    + apply idle_insert; [by left | done].
  - by split.
  - destruct (Hs _ _ _ eq_refl) as [-> ->].
    split; simpl; [done..| |done].
    apply idle_insert; [by right; left | done].
  - by split.
  - by destruct (not_idle_payload _ (Hh _ _ H)) as [Hp _]; destruct (Hp p).
  - by destruct (not_idle_payload _ (Hh _ _ H)) as [_ Hb]; destruct (Hb buf).
  - split; simpl; [done..| |done|done].
    intros k'. rewrite lookup_insert. case_decide; [|apply Hc].
    intros _. subst k'. by apply Hc.
  - by split.
  - split; simpl; [done..| |done].
    apply idle_insert; [by right; right | done].
Qed.

Lemma start_degenerate (results : list DecodeResult) :
  Forall zeroResult results -> degenerate (start results).
Proof.
  intros Hz. split; simpl; try done.
  - intros k [c Hk]. by rewrite lookup_empty in Hk.
Qed.

Lemma ExportDate_degenerate (now : Z) (get : string -> Response)
    (date : Date) (moreArgs : option Values) :
  degenerate (ExportDate m now get date moreArgs).
Proof.
  unfold ExportDate. destruct (get _) as [err|body].
  - split; simpl; try done.
    intros k [c Hk]. by rewrite lookup_empty in Hk.
  - apply start_degenerate, Decode_zeroResult.
Qed.

Lemma rtc_degenerate (s s' : state) :
  degenerate s -> rtc (step Encode m) s s' -> degenerate s'.
Proof. intros Hd Hrun. induction Hrun; eauto using step_degenerate. Qed.

(** No run of [ExportDate] ever delivers a message on [outChan]. *)
Lemma ExportDate_never_emits (now : Z) (get : string -> Response)
    (date : Date) (moreArgs : option Values) (s : state) :
  rtc (step Encode m) (ExportDate m now get date moreArgs) s ->
  output s = [].
Proof.
  intros Hrun. eapply deg_output, rtc_degenerate; [|done].
  apply ExportDate_degenerate.
Qed.

Lemma payloads_for_snoc (e : string) (out : list emission) (x : emission) :
  payloads_for e (out ++ [x])
  = (payloads_for e out
       ++ if decide (by_event x = e) then [payload x] else [])%list.
Proof.
  unfold payloads_for. rewrite filter_app, fmap_app. f_equal.
  rewrite filter_cons, filter_nil. by case_decide.
Qed.

Lemma registered_insert_handler (ec : gmap string chan)
    (hs : gmap string handler) (k : string) (h h' : handler) :
  (forall k, ec !! k = None -> hs !! k = None) ->
  hs !! k = Some h ->
  forall k', ec !! k' = None -> <[k := h']> hs !! k' = None.
Proof.
  intros Hreg Hk k' Hk'. rewrite lookup_insert_ne; [by apply Hreg|].
  intros ->. rewrite (Hreg _ Hk') in Hk. done.
Qed.

Lemma step_registered (s s' : state) :
  registered s -> step Encode m s s' -> registered s'.
Proof.
  unfold registered. intros Hreg Hstep.
  destruct Hstep; simpl in *; eauto using registered_insert_handler.
  - intros k. rewrite !lookup_insert. case_decide; [done | apply Hreg].
  - intros k'. rewrite lookup_insert. case_decide; [done | apply Hreg].
Qed.

(** One step moves payloads along, and neither makes nor loses one. *)
Lemma step_accounted (e : string) (s s' : state) :
  registered s -> step Encode m s s' ->
  accounted Encode m e s' = accounted Encode m e s.
Proof.
  unfold registered, accounted, backlog. intros Hreg Hstep.
  destruct Hstep; simpl in *.
  - done.
  - by case_decide.
  - rewrite lookup_insert. case_decide; [|done].
    subst e. by rewrite (Hreg _ H).
  - done.
  - rewrite lookup_insert. case_decide; [|done].
    subst e. by rewrite H.
  - done.
  - rewrite lookup_insert. case_decide; [|done].
    subst e. by rewrite H.
  - rewrite payloads_for_snoc, lookup_insert. simpl.
    case_decide; [|by rewrite app_nil_r].
    subst e. rewrite H. simpl. by rewrite <- app_assoc.
  - done.
  - done.
  - rewrite lookup_insert. case_decide; [|done].
    subst e. by rewrite H.
Qed.

Lemma rtc_accounted (e : string) (s s' : state) :
  registered s -> rtc (step Encode m) s s' ->
  accounted Encode m e s' = accounted Encode m e s.
Proof.
  intros Hreg Hrun. induction Hrun as [|s1 s2 s3 Hstep Hrun IH]; [done|].
  rewrite IH by eauto using step_registered.
  by apply step_accounted.
Qed.

Lemma start_accounted (e : string) (results : list DecodeResult) :
  accounted Encode m e (start results)
  = sent (eventHandler Encode m e (dispatched e results)).
Proof. unfold accounted, backlog. simpl. by rewrite lookup_empty. Qed.

Lemma start_registered (results : list DecodeResult) :
  registered (start results).
Proof. done. Qed.

(** C3: at every point of every run of the loop of [ExportDate] on any
    sequence of decode results, the payloads received on the output from
    the handler of one event type are, in order, the first of those that
    [eventHandler] makes of the records of that type in stream order. *)
Theorem output_order_per_event (results : list DecodeResult) (s : state)
    (e : string) :
  rtc (step Encode m) (start results) s ->
  payloads_for e (output s)
    `prefix_of` sent (eventHandler Encode m e (dispatched e results)).
Proof.
  intros Hrun. rewrite <- start_accounted.
  rewrite <- (rtc_accounted e _ _ (start_registered results) Hrun).
  unfold accounted. by eexists.
Qed.

Lemma step_tagged (s s' : state) :
  tagged Encode m s -> step Encode m s s' -> tagged Encode m s'.
Proof.
  unfold tagged. intros [Hh Ho] Hstep.
  destruct Hstep; simpl in *; (split; [|try done]); try done.
  all: try (intros k' buf'; rewrite lookup_insert;
            case_decide; [done | apply Hh]).
  - intros k' buf'. rewrite lookup_insert.
    case_decide; [|apply Hh]. intros [= <-]. subst k'. by exists p.
  - apply Forall_app. split; [done|].
    apply Forall_singleton. simpl. by apply Hh.
Qed.

(** The tag of a delivered message is the event type written into it. *)
Lemma output_tagged (results : list DecodeResult) (s : state) :
  rtc (step Encode m) (start results) s ->
  Forall (fun x => produced Encode m (by_event x) (payload x)) (output s).
Proof.
  intros Hrun.
  assert (forall s0, rtc (step Encode m) s0 s ->
                     tagged Encode m s0 -> tagged Encode m s) as Hall.
  { intros s0 Hrun0. induction Hrun0; eauto using step_tagged. }
  apply (Hall _ Hrun). by split.
Qed.

(** C10: in every run of [ExportDate], every element that decodes leaves
    the event-type identifier empty and the properties nil, and the
    registry [eventChans] holds at most one entry, under the empty key. *)
Theorem registry_only_empty_key (now : Z) (get : string -> Response)
    (date : Date) (moreArgs : option Values) (s : state) :
  rtc (step Encode m) (ExportDate m now get date moreArgs) s ->
  (forall el ev, Decode el = Decoded ev ->
                 event ev = "" /\ properties ev = None)
  /\ (forall k, is_Some (eventChans s !! k) -> k = "")
  /\ (size (eventChans s) <= 1)%nat.
Proof.
  intros Hrun.
  split; [intros el ev Hd; by rewrite (Decode_zero _ _ Hd)|].
  pose proof (rtc_degenerate _ _ (ExportDate_degenerate now get date moreArgs)
                Hrun) as [_ _ Hc _ _].
  split; [done|].
  destruct (eventChans s !! "") as [c|] eqn:Hempty.
  - assert (eventChans s = {["" := c]}) as ->; [|by rewrite map_size_singleton].
    apply map_eq. intros k. destruct (decide (k = "")) as [->|Hne].
    + by rewrite lookup_singleton_eq.
    + rewrite lookup_singleton_ne by congruence.
      destruct (eventChans s !! k) eqn:Hk; [|done].
      destruct Hne. apply Hc. by rewrite Hk.
  - assert (eventChans s = ∅) as ->; [|rewrite map_size_empty; lia].
    apply map_eq. intros k. rewrite lookup_empty.
    destruct (eventChans s !! k) eqn:Hk; [|done].
    assert (k = "") as -> by (apply Hc; by rewrite Hk). congruence.
Qed.

(** ** The handler *)

(** Lines 135 and 136 overwrite whatever the record held under the two
    reserved keys. *)
Lemma enrich_overwrites (e : string) (p : props) :
  enrich m e p !! "product" = Some (VString (Product m))
  /\ enrich m e p !! "event" = Some (VString e).
Proof.
  unfold enrich. split.
  - by rewrite lookup_insert_ne, lookup_insert_eq.
  - by rewrite lookup_insert_eq.
Qed.

(** ** Runs of [ExportDate] on one record *)

Lemma ExportDate_signup (now : Z) (date : Date) (moreArgs : option Values) :
  ExportDate m now (fun _ => GetOK [Value signup_u1]) date moreArgs
  = start [Decoded zeroJSONEvent].
Proof. reflexivity. Qed.

Lemma run_hands_over (ev : JSONEvent) :
  rtc (step Encode m) (start [Decoded ev])
      (handed_over (event ev) (properties ev) (Reading []) Open false).
Proof.
  eapply rtc_l.
  { by apply (step_dispatch_new _ _ ev [] ∅ ∅ []). }
  eapply rtc_l.
  { by apply (step_receive _ _ (event ev) (properties ev) [] _ _ []);
      rewrite lookup_insert_eq. }
  simpl. unfold handed_over.
  by rewrite insert_empty, insert_insert_eq, insert_empty.
Qed.

(** The loop does not wait for its handlers: it can be back in its
    caller while the handler still holds the last record of its type. *)
Lemma run_returns (ev : JSONEvent) :
  rtc (step Encode m) (start [Decoded ev])
      (handed_over (event ev) (properties ev) Returned Closed false).
Proof.
  eapply rtc_trans; [apply run_hands_over|].
  eapply rtc_l; [apply step_eof|].
  eapply rtc_l.
  { apply (step_close _ _ (event ev)). by rewrite lookup_singleton_eq. }
  rewrite insert_singleton_eq.
  eapply rtc_l; [|apply rtc_refl].
  apply step_return. intros k c.
  rewrite lookup_singleton. case_decide; congruence.
Qed.

Lemma run_crashes :
  rtc (step Encode m) (start [Decoded zeroJSONEvent])
      (handed_over "" None (Reading []) Open true).
Proof.
  eapply rtc_trans; [apply (run_hands_over zeroJSONEvent)|].
  apply rtc_once, (step_nil_map _ _ ""). by rewrite lookup_singleton_eq.
Qed.

(** C1: on a stream of one well-formed record, [ExportDate] can be back
    in its caller with no message delivered on the output: the record
    went to the handler as a nil map, which the handler cannot enrich. *)
Theorem ExportDate_returns_without_output (now : Z) (date : Date)
    (moreArgs : option Values) :
  exists s,
    rtc (step Encode m)
        (ExportDate m now (fun _ => GetOK [Value signup_u1]) date moreArgs) s
    /\ rt s = Returned
    /\ handlers s !! "" = Some (Holding None)
    /\ output s = [].
Proof.
  rewrite ExportDate_signup. eexists. split; [apply (run_returns zeroJSONEvent)|].
  simpl. by rewrite lookup_singleton_eq.
Qed.

(** C2: the record of event type [signup] is decoded to the zero
    [JSONEvent]; a run hands it as a nil map to the handler started for
    the empty event type, no channel exists for [signup], and the
    assignment of line 135 ends the process with nothing delivered. *)
Theorem ExportDate_signup_not_enriched (now : Z) (date : Date)
    (moreArgs : option Values) :
  Decode (Value signup_u1) = Decoded zeroJSONEvent
  /\ exists s,
       rtc (step Encode m)
           (ExportDate m now (fun _ => GetOK [Value signup_u1]) date moreArgs)
           s
       /\ eventChans s !! "signup" = None
       /\ handlers s !! "" = Some (Holding None)
       /\ crashed s = true
       /\ output s = [].
Proof.
  split; [reflexivity|].
  rewrite ExportDate_signup. eexists. split; [apply run_crashes|].
  simpl. by rewrite lookup_singleton_eq.
Qed.

(** C6: when [http.Get] fails, [ExportDate] panics with a fixed string,
    whatever the error was; when an element fails to decode, it panics
    with the error. *)
Theorem ExportDate_failures_panic (now : Z) (date : Date)
    (moreArgs : option Values) (err : string)
    (unread : list DecodeResult) :
  rt (ExportDate m now (fun _ => GetError err) date moreArgs)
  = Panicked (PanicString "XXX handle this. FAILED")
  /\ step Encode m (start (DecodeError err :: unread))
       {| rt := Panicked (PanicError err); eventChans := ∅; handlers := ∅;
          output := []; crashed := false |}.
Proof. split; [reflexivity | apply step_decode_error]. Qed.

End PipelineProperties.

(** ** Closed instances *)

Lemma registry_only_empty_key_witness :
  (forall el ev, Decode el = Decoded ev ->
                 event ev = "" /\ properties ev = None)
  /\ (forall k,
        is_Some (eventChans (handed_over "" None (Reading []) Open false) !! k)
        -> k = "")
  /\ (size (eventChans (handed_over "" None (Reading []) Open false))
       <= 1)%nat.
Proof.
  apply (registry_only_empty_key exampleEncode app 0
           (fun _ => GetOK [Value signup_u1]) day_2013_03_07 None).
  rewrite ExportDate_signup. apply (run_hands_over _ _ zeroJSONEvent).
Defined.


(** ** The end-to-end scenario on the loop and its handlers

    Were the three records decoded with their fields, a run delivers the
    three enriched records and ends with every handler past its loop. *)

Ltac run_step lem := eapply rtc_l; [lem; try (vm_compute; reflexivity)|].

Lemma scenario_run :
  rtc (step exampleEncode app) (start scenario) scenario_done.
Proof.
  unfold start, scenario.
  run_step ltac:(eapply step_dispatch_new).
  run_step ltac:(eapply (step_receive _ _ "signup")).
  run_step ltac:(eapply (step_enrich _ _ "signup")).
  run_step ltac:(eapply (step_emit _ _ "signup")).
  run_step ltac:(eapply step_dispatch_new).
  run_step ltac:(eapply (step_receive _ _ "purchase")).
  run_step ltac:(eapply (step_enrich _ _ "purchase")).
  run_step ltac:(eapply (step_emit _ _ "purchase")).
  run_step ltac:(eapply step_dispatch_known; eexists).
  run_step ltac:(eapply (step_receive _ _ "signup")).
  run_step ltac:(eapply (step_enrich _ _ "signup")).
  run_step ltac:(eapply (step_emit _ _ "signup")).
  run_step ltac:(eapply step_eof).
  run_step ltac:(eapply (step_close _ _ "signup")).
  run_step ltac:(eapply (step_close _ _ "purchase")).
  eapply rtc_l.
  { apply step_return. intros k c Hk. simpl in Hk.
    rewrite !lookup_insert in Hk.
    repeat case_decide; rewrite ?lookup_empty in Hk; congruence. }
  run_step ltac:(eapply (step_exit _ _ "signup")).
  run_step ltac:(eapply (step_exit _ _ "purchase")).
  match goal with
  | |- rtc _ ?s _ =>
      assert (s = scenario_done) as -> by (vm_compute; reflexivity)
  end.
  apply rtc_refl.
Qed.

Lemma output_order_per_event_witness :
  rtc (step exampleEncode app) (start scenario) scenario_done
  /\ payloads_for "signup" (output scenario_done)
       `prefix_of` sent (eventHandler exampleEncode app "signup"
                           (dispatched "signup" scenario)).
Proof.
  split; [apply scenario_run|].
  apply (output_order_per_event exampleEncode app scenario scenario_done
           "signup").
  apply scenario_run.
Defined.

Example scenario_signup_payloads :
  length (payloads_for "signup" (output scenario_done)) = 2%nat
  /\ payloads_for "signup" (output scenario_done)
     = sent (eventHandler exampleEncode app "signup"
               (dispatched "signup" scenario)).
Proof. by vm_compute. Qed.

(** * Further properties of the package *)

(** ** The loop and its handlers, on any sequence of decode results *)

Section PipelineShape.

Variable Encode : props -> option string.
Variable m : Mixpanel.

Lemma start_coherent (results : list DecodeResult) :
  coherent (start results).
Proof.
  split; simpl; try done.
  - intros k. by rewrite !lookup_empty.
Qed.

Lemma dom_update {A} (hs : gmap string A) (k : string) (h h' : A) :
  hs !! k = Some h ->
  forall k', is_Some (<[k := h']> hs !! k') <-> is_Some (hs !! k').
Proof.
  intros Hk k'. rewrite lookup_insert. case_decide; [|done].
  subst k'. rewrite Hk. split; eauto.
Qed.

Lemma exited_update (hs : gmap string handler) (ec : gmap string chan)
    (k : string) (h' : handler) :
  h' <> Exited ->
  (forall k, hs !! k = Some Exited -> ec !! k = Some Closed) ->
  forall k', <[k := h']> hs !! k' = Some Exited -> ec !! k' = Some Closed.
Proof.
  intros Hne He k'. rewrite lookup_insert.
  case_decide; [by intros [= ?] | apply He].
Qed.

Lemma step_coherent (s s' : state) :
  coherent s -> step Encode m s s' -> coherent s'.
Proof.
  intros [Hd Ho Hc Hs He] Hstep.
  destruct Hstep; simpl in *; (split; simpl; try done).
  - by intros ? ? ? [= <- _ _].
  - intros k. rewrite !lookup_insert. case_decide; [|apply Hd].
    split; eauto.
  - intros _ k c. rewrite lookup_insert.
    case_decide; [by intros [= <-] | by apply Ho].
  - intros ? ? ? [= <- _ _]. by rewrite lookup_insert_eq.
  - intros k Hk. rewrite lookup_insert_ne.
    + apply He. revert Hk. rewrite lookup_insert. by case_decide.
    + intros <-. by rewrite lookup_insert_eq in Hk.
  - intros k'. rewrite (dom_update _ _ _ _ H). apply Hd.
  - by apply exited_update.
  - intros k'. rewrite (dom_update _ _ _ _ H). apply Hd.
  - by apply exited_update.
  - intros k'. rewrite (dom_update _ _ _ _ H). apply Hd.
  - by apply exited_update.
  - intros k'. rewrite (dom_update _ _ _ _ H). apply Hd.
  - intros k' Hk'. rewrite lookup_insert.
    case_decide; [done | by apply He].
  - intros k'. rewrite (dom_update _ _ _ _ H). apply Hd.
  - intros k'. rewrite lookup_insert.
    case_decide; [by subst | apply He].
Qed.

Lemma rtc_coherent (results : list DecodeResult) (s : state) :
  rtc (step Encode m) (start results) s -> coherent s.
Proof.
  intros Hrun.
  assert (forall s0, rtc (step Encode m) s0 s -> coherent s0 -> coherent s)
    as Hall.
  { intros s0 Hrun0. induction Hrun0; eauto using step_coherent. }
  apply (Hall _ Hrun), start_coherent.
Qed.

(** X1: at every point of a run a handler has been started for exactly
    the event types that have a channel in the registry, and as long as
    the loop has not reached its [close] calls every one of them is
    still running: none has left its loop. *)
Theorem handlers_match_registry (results : list DecodeResult) (s : state) :
  rtc (step Encode m) (start results) s ->
  dom (handlers s) = dom (eventChans s)
  /\ (loop_open (rt s) ->
      forall k h, handlers s !! k = Some h -> h <> Exited).
Proof.
  intros Hrun. destruct (rtc_coherent _ _ Hrun) as [Hd Ho _ _ He].
  split.
  - apply set_eq. intros k. rewrite !elem_of_dom. apply Hd.
  - intros Hopen k h Hk ->.
    apply He in Hk. apply (Ho Hopen) in Hk. done.
Qed.

(** X2: the loop never sends on a closed channel: whenever it is blocked
    on a send, the channel is registered and open, and its handler
    exists and has not left its loop. *)
Theorem send_finds_open_channel (results : list DecodeResult) (s : state)
    (k : string) (p : option props) (u : list DecodeResult) :
  rtc (step Encode m) (start results) s ->
  rt s = Sending k p u ->
  eventChans s !! k = Some Open
  /\ exists h, handlers s !! k = Some h /\ h <> Exited.
Proof.
  intros Hrun Hrt. destruct (rtc_coherent _ _ Hrun) as [Hd Ho _ Hs He].
  destruct (Hs _ _ _ Hrt) as [c Hc].
  assert (c = Open) as -> by (apply (Ho ltac:(by rewrite Hrt) k c Hc)).
  split; [done|].
  destruct (proj2 (Hd k)) as [h Hh]; [by rewrite Hc|].
  exists h. split; [done|]. intros ->.
  apply He in Hh. congruence.
Qed.

Lemma step_panicked (s s' : state) (v : panicValue) :
  step Encode m s s' -> rt s = Panicked v ->
  rt s' = Panicked v /\ eventChans s' = eventChans s.
Proof. intros Hstep. destruct Hstep; simpl; intros Hrt; by try discriminate. Qed.

Lemma rtc_panicked (s s' : state) (v : panicValue) :
  rtc (step Encode m) s s' -> rt s = Panicked v ->
  rt s' = Panicked v /\ eventChans s' = eventChans s.
Proof.
  intros Hrun. induction Hrun as [|s1 s2 s3 Hstep Hrun IH]; [done|].
  intros Hrt. destruct (step_panicked _ _ _ Hstep Hrt) as [Hrt2 Hec2].
  destruct (IH Hrt2) as [Hrt3 Hec3]. split; congruence.
Qed.

Lemma step_waiting_stays (s s' : state) (v : panicValue) (k : string) :
  step Encode m s s' ->
  rt s = Panicked v ->
  (forall k c, eventChans s !! k = Some c -> c = Open) ->
  handlers s !! k = Some Waiting ->
  handlers s' !! k = Some Waiting.
Proof.
  intros Hstep. destruct Hstep; simpl; intros Hrt Hopen Hk;
    try discriminate; try done.
  - rewrite lookup_insert_ne; [done|]. intros ->. congruence.
  - rewrite lookup_insert. by case_decide.
  - match goal with H : ec !! _ = Some Closed |- _ => apply Hopen in H end.
    done.
Qed.

(** X3: once the loop has panicked on an element that failed to decode,
    it stays there: the registry never changes again and no channel is
    ever closed, so no handler ever leaves its loop, and a handler that
    is waiting on its channel waits for ever. *)
Theorem panic_leaves_handlers_blocked (results : list DecodeResult)
    (s s' : state) (v : panicValue) :
  rtc (step Encode m) (start results) s ->
  rt s = Panicked v ->
  rtc (step Encode m) s s' ->
  rt s' = Panicked v
  /\ eventChans s' = eventChans s
  /\ (forall k c, eventChans s' !! k = Some c -> c = Open)
  /\ (forall k, handlers s' !! k <> Some Exited)
  /\ (forall k, handlers s !! k = Some Waiting ->
                handlers s' !! k = Some Waiting).
Proof.
  intros Hrun Hrt Hrun'.
  destruct (rtc_panicked _ _ _ Hrun' Hrt) as [Hrt' Hec'].
  destruct (rtc_coherent results s') as [_ Ho _ _ He];
    [by eapply rtc_trans|].
  assert (forall k c, eventChans s' !! k = Some c -> c = Open) as Hopen
    by (apply Ho; by rewrite Hrt').
  repeat split; [done..| |].
  - intros k Hk. apply He in Hk. apply Hopen in Hk. done.
  - rewrite Hec' in Hopen. clear Hrun Hrt' Hec' Ho He.
    induction Hrun' as [|s1 s2 s3 Hstep Hrun' IH]; [done|].
    intros k Hk.
    destruct (step_panicked _ _ _ Hstep Hrt) as [Hrt2 Hec2].
    apply IH; [done | by rewrite Hec2 |].
    by eapply step_waiting_stays.
Qed.

(** X4: when [ExportDate] is back in its caller and every handler is
    past its loop, the output holds, for each event type, exactly the
    payloads that [eventHandler] makes of the records of that type, in
    stream order: none is lost and none is sent twice. *)
Theorem finished_output_complete (results : list DecodeResult) (s : state)
    (e : string) :
  rtc (step Encode m) (start results) s ->
  finished s ->
  payloads_for e (output s)
  = sent (eventHandler Encode m e (dispatched e results)).
Proof.
  intros Hrun [Hrt Hh].
  rewrite <- (start_accounted Encode m).
  rewrite <- (rtc_accounted Encode m e _ _ (start_registered results) Hrun).
  unfold accounted, backlog. rewrite Hrt. simpl.
  destruct (handlers s !! e) as [h|] eqn:Hk;
    [rewrite (Hh _ _ Hk)|]; simpl; by rewrite app_nil_r.
Qed.

(** X5: a run that has not crashed and whose loop has not panicked is
    never stuck while the output is being read: either it is finished,
    or some goroutine can take a step. *)
Theorem loop_progress (results : list DecodeResult) (s : state) :
  rtc (step Encode m) (start results) s ->
  crashed s = false ->
  (forall v, rt s <> Panicked v) ->
  finished s \/ exists s', step Encode m s s'.
Proof.
  intros Hrun Hlive Hnp.
  destruct (rtc_coherent _ _ Hrun) as [Hd Ho Hcl Hs He].
  destruct s as [r ec hs out dead]. simpl in *. subst dead.
  destruct r as [[|[ev|err] u]|k p u| | |v].
  - right. eexists. apply step_eof.
  - right. destruct (ec !! event ev) as [c|] eqn:Hk.
    + eexists. apply step_dispatch_known. by rewrite Hk.
    + eexists. by apply step_dispatch_new.
  - right. eexists. apply step_decode_error.
  - right. destruct (Hs _ _ _ eq_refl) as [c Hc].
    assert (c = Open) as -> by (by apply (Ho I k)).
    destruct (proj2 (Hd k)) as [h Hh]; [by rewrite Hc|].
    destruct h as [|[q|]|buf|].
    + eexists. by apply step_receive.
    + eexists. by apply (step_enrich _ _ k q).
    + eexists. by apply (step_nil_map _ _ k).
    + eexists. by apply (step_emit _ _ k buf).
    + apply He in Hh. congruence.
  - right.
    destruct (decide (map_Forall (fun _ c => is_closed c = true) ec))
      as [Hall|Hsome].
    + eexists. apply step_return. intros k c Hk.
      apply Hall in Hk. by destruct c.
    + apply map_not_Forall in Hsome as (k & c & Hk & Hc); [|apply _].
      destruct c; [|done]. eexists. by apply (step_close _ _ k).
  - destruct (decide (map_Forall (fun _ h => is_exited h = true) hs))
      as [Hall|Hsome].
    + left. split; [done|]. simpl. intros k h Hk.
      apply Hall in Hk. by destruct h.
    + right. apply map_not_Forall in Hsome as (k & h & Hk & Hh); [|apply _].
      destruct h as [|[q|]|buf|].
      * destruct (proj1 (Hd k)) as [c Hc]; [by rewrite Hk|].
        assert (c = Closed) as -> by (by apply (Hcl eq_refl k)).
        eexists. by apply (step_exit _ _ k).
      * eexists. by apply (step_enrich _ _ k q).
      * eexists. by apply (step_nil_map _ _ k).
      * eexists. by apply (step_emit _ _ k buf).
      * done.
  - by destruct (Hnp v).
Qed.

End PipelineShape.

(** ** The request: extra arguments, overrides and the query string *)

Lemma foldl_Values_Add_lookup (key : string) (values : list string)
    (r : Values) (k : string) :
  foldl (fun a v => Values_Add key v a) r values !! k
  = if decide (key = k) then
      match values with
      | [] => r !! k
      | _ => Some (default [] (r !! k) ++ values)%list
      end
    else r !! k.
Proof.
  revert r. induction values as [|v vs IH]; intros r; simpl.
  { by case_decide. }
  rewrite IH, Values_Add_lookup. case_decide; [|done].
  destruct vs as [|v' vs]; [done|]. simpl. by rewrite <- app_assoc.
Qed.

(** What the loop over [*moreArgs] leaves under each key. *)
Lemma addMoreArgs_lookup (more args : Values) (k : string) :
  addMoreArgs (Some more) args !! k
  = match more !! k with
    | Some (v :: vs) => Some (default [] (args !! k) ++ v :: vs)%list
    | _ => args !! k
    end.
Proof.
  simpl. revert k.
  apply (map_fold_weak_ind
           (fun (r : Values) (seen : Values) =>
              forall k, r !! k
                        = match seen !! k with
                          | Some (v :: vs) =>
                              Some (default [] (args !! k) ++ v :: vs)%list
                          | _ => args !! k
                          end)).
  { intros k. by rewrite lookup_empty. }
  intros key values seen r Hfresh IH k.
  rewrite foldl_Values_Add_lookup, lookup_insert.
  case_decide; [|apply IH]. subst k.
  specialize (IH key). rewrite Hfresh in IH. rewrite IH.
  by destruct values.
Qed.

(** X6: an extra argument under any key but [start], [end] and [sig]
    reaches the signed query: its values follow, in their order, those
    that [makeArgs] has set under that key; a key with no value adds
    nothing. *)
Theorem exportArgs_passes_moreArgs (m : Mixpanel) (now : Z) (date : Date)
    (more : Values) (k : string) :
  k <> "start" -> k <> "end" -> k <> "sig" ->
  exportArgs m now date (Some more) !! k
  = match more !! k with
    | Some (v :: vs) =>
        Some (default [] (makeArgs m now !! k) ++ v :: vs)%list
    | _ => makeArgs m now !! k
    end.
Proof.
  intros Hstart Hend Hsig.
  unfold exportArgs, addSignature, addSignatureFrom, Values_Set.
  rewrite !lookup_insert_ne by congruence.
  apply addMoreArgs_lookup.
Qed.

Lemma exportArgs_passes_moreArgs_witness :
  exportArgs app 1700000000 day_2013_03_07
    (Some {["format" := ["csv"]; "where" := ["a"; "b"]]}) !! "format"
  = match ({["format" := ["csv"]; "where" := ["a"; "b"]]} : Values)
          !! "format" with
    | Some (v :: vs) =>
        Some (default [] (makeArgs app 1700000000 !! "format") ++ v :: vs)%list
    | _ => makeArgs app 1700000000 !! "format"
    end.
Proof.
  apply (exportArgs_passes_moreArgs app 1700000000 day_2013_03_07
           {["format" := ["csv"]; "where" := ["a"; "b"]]} "format");
    discriminate.
Defined.

(** X7: whatever the extra arguments hold under [start], [end] or
    [sig], the signed query has exactly one value under each: the
    formatted day, twice, and the digest of the encoded query, taken
    before [sig] is set, followed by the secret. *)
Theorem exportArgs_overrides (m : Mixpanel) (now : Z) (date : Date)
    (moreArgs : option Values) :
  let day := Format_2006_01_02 date in
  let unsigned :=
    Values_Set "end" day
      (Values_Set "start" day (addMoreArgs moreArgs (makeArgs m now))) in
  exportArgs m now date moreArgs !! "start" = Some [day]
  /\ exportArgs m now date moreArgs !! "end" = Some [day]
  /\ exportArgs m now date moreArgs !! "sig"
     = Some [string_of_bytes
               (MD5.sum (bytes_of_string (Values_Encode unsigned)
                         ++ bytes_of_string (Secret m))%list)].
Proof.
  intros day unsigned. subst day unsigned.
  unfold exportArgs, addSignature, addSignatureFrom, Values_Set.
  repeat split.
  - by rewrite lookup_insert_ne, lookup_insert_ne, lookup_insert_eq.
  - by rewrite lookup_insert_ne, lookup_insert_eq.
  - by rewrite lookup_insert_eq.
Qed.

Lemma list_ascii_of_string_app (a b : string) :
  list_ascii_of_string (a +:+ b)
  = (list_ascii_of_string a ++ list_ascii_of_string b)%list.
Proof. induction a as [|c a IH]; simpl; [done | by rewrite IH]. Qed.

Lemma query_safe_app (a b : string) :
  query_safe a -> query_safe b -> query_safe (a +:+ b).
Proof.
  unfold query_safe. intros Ha Hb.
  by rewrite list_ascii_of_string_app, forallb_app, Ha, Hb.
Qed.

Lemma QueryEscape_cons (c : ascii) (rest : string) :
  QueryEscape (String c rest)
  = QueryEscape (String c "") +:+ QueryEscape rest.
Proof.
  simpl. destruct (Ascii.eqb c " "); [done|]. by destruct (shouldEscape c).
Qed.

Lemma query_safe_QueryEscape_char (c : ascii) :
  query_safe (QueryEscape (String c "")).
Proof. destruct c as [[|] [|] [|] [|] [|] [|] [|] [|]]; reflexivity. Qed.

Lemma query_safe_QueryEscape (s : string) : query_safe (QueryEscape s).
Proof.
  induction s as [|c s IH]; [done|].
  rewrite QueryEscape_cons.
  by apply query_safe_app; [apply query_safe_QueryEscape_char|].
Qed.

Lemma query_safe_writePair (key buf value : string) :
  query_safe buf -> query_safe (writePair (QueryEscape key) buf value).
Proof.
  intros Hbuf. unfold writePair.
  repeat apply query_safe_app; try apply query_safe_QueryEscape; try done.
  destruct (String.eqb buf ""); [done|]. by apply query_safe_app.
Qed.

Lemma foldl_preserves {A B} (P : A -> Prop) (f : A -> B -> A) (l : list B)
    (a : A) :
  (forall a x, P a -> P (f a x)) -> P a -> P (foldl f a l).
Proof.
  intros Hf. revert a. induction l as [|x l IH]; simpl; [done|].
  intros a Ha. by apply IH, Hf.
Qed.

Lemma query_safe_Values_EncodeFrom (keys : list string) (v : Values) :
  query_safe (Values_EncodeFrom keys v).
Proof.
  unfold Values_EncodeFrom.
  apply (foldl_preserves query_safe); [|done].
  intros buf k Hbuf.
  apply (foldl_preserves query_safe); [|done].
  intros buf' value. apply query_safe_writePair.
Qed.

(** X8: the URL handed to [http.Get] is the base URL, the path of the
    export endpoint and a query made of unreserved characters, [%], [+],
    [=] and [&] only, whatever bytes the parameters and the signature
    hold. *)
Theorem exportURL_query_safe (m : Mixpanel) (now : Z) (date : Date)
    (moreArgs : option Values) :
  exists q,
    exportURL m now date moreArgs = BaseURL m +:+ "/2.0/export?" +:+ q
    /\ query_safe q.
Proof.
  eexists. split; [reflexivity|].
  apply query_safe_Values_EncodeFrom.
Qed.

Lemma wrap64_small (x : Z) : - 2 ^ 63 <= x < 2 ^ 63 -> wrap64 x = x.
Proof. intros Hx. unfold wrap64. rewrite Z.mod_small; lia. Qed.

(** X9: from 14 January 1970 on ([now + 10000] past the last code point
    U+10FFFF) and as long as the sum fits 64 bits, [makeArgs] sets
    [expire] to one and the same value, the three bytes of U+FFFD. *)
Theorem makeArgs_expire_constant (m : Mixpanel) (now : Z) :
  0x10FFFF < now + 10000 < 2 ^ 63 ->
  makeArgs m now !! "expire" = Some [string_of_bytes [239; 191; 189]].
Proof.
  intros Hnow. unfold makeArgs, Values_Set. rewrite lookup_insert_eq.
  rewrite wrap64_small by lia.
  do 2 f_equal. unfold string_of_int64. f_equal.
  destruct ((- 2 ^ 31 <=? now + 10000) && (now + 10000 <? 2 ^ 31))
    eqn:Hrange; [|reflexivity].
  apply andb_true_iff in Hrange as [_ Hhi]. apply Z.ltb_lt in Hhi.
  unfold encoderune.
  rewrite Z.mod_small by (change (2 ^ 32) with 4294967296;
                          change (2 ^ 31) with 2147483648 in Hhi; lia).
  destruct (Z.leb_spec (now + 10000) 127); [lia|].
  destruct (Z.leb_spec (now + 10000) 2047); [lia|].
  destruct (Z.ltb_spec 1114111 (now + 10000)); [reflexivity | lia].
Qed.

Lemma makeArgs_expire_constant_witness :
  0x10FFFF < 1700000000 + 10000 < 2 ^ 63
  /\ makeArgs app 1700000000 !! "expire"
     = Some [string_of_bytes [239; 191; 189]].
Proof.
  split; [lia|]. apply (makeArgs_expire_constant app 1700000000). lia.
Defined.

Lemma bytes_of_string_of_bytes (l : list Z) :
  Forall (fun b => 0 <= b < 256) l -> bytes_of_string (string_of_bytes l) = l.
Proof.
  intros Hl. unfold bytes_of_string, string_of_bytes.
  rewrite list_ascii_of_string_of_list_ascii.
  induction Hl as [|b l Hb _ IH]; [done|].
  rewrite !fmap_cons, IH, byte_of_ascii_of_byte, Z.mod_small by done. done.
Qed.

Lemma le_bytes_range (n : nat) (x : Z) :
  Forall (fun b => 0 <= b < 256) (MD5.le_bytes n x).
Proof.
  unfold MD5.le_bytes. apply Forall_fmap, Forall_forall. intros i _. simpl.
  apply Z.mod_pos_bound. lia.
Qed.

Lemma md5_sum_range (msg : list Z) :
  Forall (fun b => 0 <= b < 256) (MD5.sum msg).
Proof.
  unfold MD5.sum. destruct (MD5.blocks _ _ _) as [[[a b] c] d].
  repeat (apply Forall_app; split); apply le_bytes_range.
Qed.

(** X10: the [sig] value carries the digest without loss: read back as
    bytes, it is the MD5 sum of the encoded query followed by the
    secret, so its hexadecimal rendering can be recovered from it. *)
Theorem addSignature_sig_carries_digest (m : Mixpanel) (args : Values) :
  exists s,
    addSignature m args !! "sig" = Some [s]
    /\ bytes_of_string s
       = MD5.sum (bytes_of_string (Values_Encode args)
                  ++ bytes_of_string (Secret m))%list.
Proof.
  eexists. split; [exact (addSignature_sig m args)|].
  apply bytes_of_string_of_bytes, md5_sum_range.
Qed.

Lemma string_length_app (a b : string) :
  String.length (a +:+ b) = (String.length a + String.length b)%nat.
Proof. induction a as [|c a IH]; simpl; [done | by rewrite IH]. Qed.

Lemma unreserved_app (a b : string) :
  unreserved a -> unreserved b -> unreserved (a +:+ b).
Proof.
  unfold unreserved. intros Ha Hb.
  by rewrite list_ascii_of_string_app, forallb_app, Ha, Hb.
Qed.

Lemma QueryEscape_unreserved (s : string) : unreserved s -> QueryEscape s = s.
Proof.
  unfold unreserved. induction s as [|c s IH]; [done|]. simpl.
  intros [Hc Hs]%andb_true_iff. apply negb_true_iff in Hc.
  destruct (Ascii.eqb_spec c " ") as [->|_]; [done|].
  by rewrite Hc, IH.
Qed.

Lemma is_digit_unreserved (c : ascii) :
  is_digit c = true -> negb (shouldEscape c) = true.
Proof.
  destruct c as [[|] [|] [|] [|] [|] [|] [|] [|]]; intros Hc;
    vm_compute in Hc; try discriminate; reflexivity.
Qed.

Lemma all_digits_unreserved (s : string) : all_digits s -> unreserved s.
Proof.
  unfold all_digits, unreserved. rewrite !forallb_forall.
  intros Hs c Hc. by apply is_digit_unreserved, Hs.
Qed.

(** Zero-padded fields of two and four digits. *)
Lemma appendInt_field (x : Z) (width : nat) :
  (width = 2%nat /\ 0 <= x <= 99) \/ (width = 4%nat /\ 0 <= x <= 9999) ->
  String.length (appendInt x width) = width
  /\ all_digits (appendInt x width)
  /\ digits_value (appendInt x width) = x.
Proof.
  assert (forall w bound,
            forallb (fun n =>
                       (String.length (appendInt (Z.of_nat n) w) =? w)%nat
                       && forallb is_digit
                            (list_ascii_of_string (appendInt (Z.of_nat n) w))
                       && (digits_value (appendInt (Z.of_nat n) w)
                           =? Z.of_nat n))
                    (seq 0 bound) = true ->
            forall x, 0 <= x < Z.of_nat bound ->
                      String.length (appendInt x w) = w
                      /\ all_digits (appendInt x w)
                      /\ digits_value (appendInt x w) = x) as Hcheck.
  { intros w bound Hall y Hy. rewrite forallb_forall in Hall.
    specialize (Hall (Z.to_nat y)). rewrite Z2Nat.id in Hall by lia.
    apply andb_true_iff in Hall as [Hall Hvalue]; [|apply in_seq; lia].
    apply andb_true_iff in Hall as [Hlen Hchars].
    apply Nat.eqb_eq in Hlen. by apply Z.eqb_eq in Hvalue. }
  intros [[-> Hx] | [-> Hx]].
  - apply (Hcheck 2%nat (Z.to_nat 100)); [by vm_compute | lia].
  - apply (Hcheck 4%nat (Z.to_nat 10000)); [by vm_compute | lia].
Qed.

(** X11: for a day of the years 0 to 9999, the value sent as [start]
    and [end] is YYYY-MM-DD: four digits that write the year, a dash,
    two digits that write the month, a dash, two digits that write the
    day, ten characters in all, which the query encoding leaves as they
    are. *)
Theorem Format_2006_01_02_shape (d : Date) :
  0 <= year d <= 9999 -> 1 <= month d <= 12 -> 1 <= day d <= 31 ->
  exists yyyy mm dd,
    Format_2006_01_02 d = yyyy +:+ "-" +:+ mm +:+ "-" +:+ dd
    /\ (String.length yyyy = 4%nat /\ all_digits yyyy
        /\ digits_value yyyy = year d)
    /\ (String.length mm = 2%nat /\ all_digits mm
        /\ digits_value mm = month d)
    /\ (String.length dd = 2%nat /\ all_digits dd
        /\ digits_value dd = day d)
    /\ String.length (Format_2006_01_02 d) = 10%nat
    /\ QueryEscape (Format_2006_01_02 d) = Format_2006_01_02 d.
Proof.
  intros Hy Hm Hd.
  destruct (appendInt_field (year d) 4) as (Ly & Dy & Vy); [right; lia|].
  destruct (appendInt_field (month d) 2) as (Lm & Dm & Vm); [left; lia|].
  destruct (appendInt_field (day d) 2) as (Ld & Dd & Vd); [left; lia|].
  exists (appendInt (year d) 4), (appendInt (month d) 2),
         (appendInt (day d) 2).
  split; [reflexivity|]. do 3 (split; [done|]).
  unfold Format_2006_01_02. split.
  - rewrite !string_length_app, Ly, Lm, Ld. reflexivity.
  - apply QueryEscape_unreserved.
    apply unreserved_app; [by apply all_digits_unreserved|].
    apply unreserved_app; [done|].
    apply unreserved_app; [by apply all_digits_unreserved|].
    apply unreserved_app; [done | by apply all_digits_unreserved].
Qed.

Lemma Format_2006_01_02_shape_witness :
  exists yyyy mm dd,
    Format_2006_01_02 day_2013_03_07 = yyyy +:+ "-" +:+ mm +:+ "-" +:+ dd
    /\ (String.length yyyy = 4%nat /\ all_digits yyyy
        /\ digits_value yyyy = year day_2013_03_07)
    /\ (String.length mm = 2%nat /\ all_digits mm
        /\ digits_value mm = month day_2013_03_07)
    /\ (String.length dd = 2%nat /\ all_digits dd
        /\ digits_value dd = day day_2013_03_07)
    /\ String.length (Format_2006_01_02 day_2013_03_07) = 10%nat
    /\ QueryEscape (Format_2006_01_02 day_2013_03_07)
       = Format_2006_01_02 day_2013_03_07.
Proof.
  apply (Format_2006_01_02_shape day_2013_03_07); simpl; lia.
Defined.

(** ** The handler and the runs of [ExportDate] *)

Section HandlerRuns.

Variable Encode : props -> option string.
Variable m : Mixpanel.

(** X13: on a queue of non-nil maps [eventHandler] sends one message
    per record, in order, each made of the record enriched under its own
    event type, and leaves its loop when the channel is closed. *)
Theorem eventHandler_completes (e : string) (records : list props) :
  sent (eventHandler Encode m e (Some <$> records))
  = handled Encode m e <$> records
  /\ completed (eventHandler Encode m e (Some <$> records)) = true.
Proof.
  induction records as [|p records [IHs IHc]]; [done|].
  rewrite !fmap_cons. cbn [eventHandler sent completed].
  by rewrite IHs, IHc.
Qed.

(** X14: a nil map ends [eventHandler] by a panic: the records before it
    have been sent, those after it never are. *)
Theorem eventHandler_stops_at_nil (e : string) (records : list props)
    (after : list (option props)) :
  sent (eventHandler Encode m e ((Some <$> records) ++ None :: after))
  = handled Encode m e <$> records
  /\ completed (eventHandler Encode m e
                  ((Some <$> records) ++ None :: after)) = false.
Proof.
  induction records as [|p records [IHs IHc]]; [done|].
  rewrite !fmap_cons, <- !app_comm_cons. cbn [eventHandler sent completed].
  by rewrite IHs, IHc.
Qed.

(** X15: no run of [ExportDate], whatever the response, ever delivers a
    message on the output channel; the only handler it can start is the
    one of the empty event type, and it never holds a record. *)
Theorem ExportDate_never_delivers (now : Z) (get : string -> Response)
    (date : Date) (moreArgs : option Values) (s : state) :
  rtc (step Encode m) (ExportDate m now get date moreArgs) s ->
  output s = []
  /\ forall k h, handlers s !! k = Some h -> k = "" /\ idle h.
Proof.
  intros Hrun.
  destruct (rtc_degenerate Encode m _ _
              (ExportDate_degenerate m now get date moreArgs) Hrun)
    as [_ _ Hc Hh Ho].
  split; [done|]. intros k h Hk. split; [|by eapply Hh].
  assert (registered s) as Hreg.
  { assert (registered (ExportDate m now get date moreArgs)) as Hinit.
    { unfold ExportDate. by destruct (get _). }
    revert Hinit. clear -Hrun.
    induction Hrun; eauto using step_registered. }
  apply Hc. destruct (eventChans s !! k) eqn:Hec; [done|].
  apply Hreg in Hec. congruence.
Qed.

(** X16: when [http.Get] fails nothing else ever happens: the state
    reached by the panic has no handler and no step. *)
Theorem transport_failure_is_final (now : Z) (get : string -> Response)
    (date : Date) (moreArgs : option Values) (err : string) (s : state) :
  get (exportURL m now date moreArgs) = GetError err ->
  rtc (step Encode m) (ExportDate m now get date moreArgs) s ->
  s = ExportDate m now get date moreArgs
  /\ handlers s = ∅ /\ eventChans s = ∅ /\ output s = [].
Proof.
  intros Hget Hrun. unfold ExportDate in *. rewrite Hget in *.
  apply rtc_inv in Hrun as [<- | (s1 & Hstep & _)]; [done|].
  exfalso. inv Hstep; simplify_map_eq.
Qed.

End HandlerRuns.

(** ** Closed instances of the further properties *)

Lemma scenario_sending_run :
  rtc (step exampleEncode app) (start scenario) scenario_sending.
Proof.
  unfold start, scenario.
  run_step ltac:(eapply step_dispatch_new).
  match goal with
  | |- rtc _ ?s _ =>
      assert (s = scenario_sending) as -> by (vm_compute; reflexivity)
  end.
  apply rtc_refl.
Qed.

Lemma interrupted_run :
  rtc (step exampleEncode app) (start interrupted) interrupted_panicked.
Proof.
  unfold start, interrupted, scenario. simpl.
  run_step ltac:(eapply step_dispatch_new).
  run_step ltac:(eapply (step_receive _ _ "signup")).
  run_step ltac:(eapply (step_enrich _ _ "signup")).
  run_step ltac:(eapply (step_emit _ _ "signup")).
  run_step ltac:(eapply step_dispatch_new).
  run_step ltac:(eapply (step_receive _ _ "purchase")).
  run_step ltac:(eapply step_decode_error).
  match goal with
  | |- rtc _ ?s _ =>
      assert (s = interrupted_panicked) as -> by (vm_compute; reflexivity)
  end.
  apply rtc_refl.
Qed.

Lemma interrupted_leak :
  rtc (step exampleEncode app) interrupted_panicked interrupted_leaked.
Proof.
  unfold interrupted_panicked.
  run_step ltac:(eapply (step_enrich _ _ "purchase")).
  run_step ltac:(eapply (step_emit _ _ "purchase")).
  match goal with
  | |- rtc _ ?s _ =>
      assert (s = interrupted_leaked) as -> by (vm_compute; reflexivity)
  end.
  apply rtc_refl.
Qed.

Lemma scenario_done_finished : finished scenario_done.
Proof.
  split; [done|]. intros k h. unfold scenario_done. simpl.
  rewrite lookup_insert. case_decide; [by intros [= <-]|].
  rewrite lookup_singleton. case_decide; [by intros [= <-] | done].
Qed.

Lemma handlers_match_registry_witness :
  dom (handlers scenario_sending) = dom (eventChans scenario_sending)
  /\ forall k h, handlers scenario_sending !! k = Some h -> h <> Exited.
Proof.
  destruct (handlers_match_registry exampleEncode app scenario
              scenario_sending scenario_sending_run) as [Hdom Hrunning].
  split; [exact Hdom | exact (Hrunning I)].
Defined.

Lemma send_finds_open_channel_witness :
  eventChans scenario_sending !! "signup" = Some Open
  /\ exists h, handlers scenario_sending !! "signup" = Some h /\ h <> Exited.
Proof.
  apply (send_finds_open_channel exampleEncode app scenario scenario_sending
           "signup" (Some plain_u1) (tail scenario)).
  - apply scenario_sending_run.
  - reflexivity.
Defined.

Lemma panic_leaves_handlers_blocked_witness :
  rt interrupted_leaked
  = Panicked (PanicError "unexpected end of JSON input")
  /\ eventChans interrupted_leaked = eventChans interrupted_panicked
  /\ (forall k c, eventChans interrupted_leaked !! k = Some c -> c = Open)
  /\ (forall k, handlers interrupted_leaked !! k <> Some Exited)
  /\ (forall k, handlers interrupted_panicked !! k = Some Waiting ->
                handlers interrupted_leaked !! k = Some Waiting).
Proof.
  apply (panic_leaves_handlers_blocked exampleEncode app interrupted
           interrupted_panicked interrupted_leaked).
  - apply interrupted_run.
  - reflexivity.
  - apply interrupted_leak.
Defined.

Lemma finished_output_complete_witness :
  payloads_for "signup" (output scenario_done)
  = sent (eventHandler exampleEncode app "signup"
            (dispatched "signup" scenario)).
Proof.
  apply (finished_output_complete exampleEncode app scenario scenario_done
           "signup").
  - apply scenario_run.
  - apply scenario_done_finished.
Defined.

Lemma loop_progress_witness :
  finished scenario_sending
  \/ exists s', step exampleEncode app scenario_sending s'.
Proof.
  apply (loop_progress exampleEncode app scenario scenario_sending).
  - apply scenario_sending_run.
  - reflexivity.
  - discriminate.
Defined.

Lemma ExportDate_never_delivers_witness :
  output (handed_over "" None (Reading []) Open false) = []
  /\ forall k h,
       handlers (handed_over "" None (Reading []) Open false) !! k = Some h ->
       k = "" /\ idle h.
Proof.
  apply (ExportDate_never_delivers exampleEncode app 0
           (fun _ => GetOK [Value signup_u1]) day_2013_03_07 None).
  rewrite ExportDate_signup. apply (run_hands_over _ _ zeroJSONEvent).
Defined.

Lemma transport_failure_is_final_witness :
  let failed :=
    ExportDate app 0 (fun _ => GetError "connection refused")
      day_2013_03_07 None in
  failed = failed
  /\ handlers failed = ∅ /\ eventChans failed = ∅ /\ output failed = [].
Proof.
  intros failed.
  apply (transport_failure_is_final exampleEncode app 0
           (fun _ => GetError "connection refused") day_2013_03_07 None
           "connection refused" failed).
  - reflexivity.
  - apply rtc_refl.
Defined.

(** ** Records without an event-type identifier *)

Section EmptyIdentifier.

Variable Encode : props -> option string.
Variable m : Mixpanel.






End EmptyIdentifier.


